(** * Offline legal assistant (app.py): retrieval and generation core

    A shallow embedding of the non-presentation part of [app.py]:
    [get_llm], [AIWorker.run], [load_law], [detect_file], [find_article]
    and [Main.ask_ai], together with the Python string primitives they
    rely on, and the properties of the specification stated over them. *)

From Stdlib Require Import Ascii String.
From Stdlib Require Import ZArith List Bool Lia.
Import ListNotations.

Local Open Scope Z_scope.

(** ** Python strings

    A Python [str] is a sequence of Unicode code points; [len], slicing,
    [find] and [startswith] all count code points.  Offsets are [Z], as
    [str.find] answers [-1] when there is no match. *)

Module Py.

Definition char := Z.
Definition str := list char.

Definition len (s : str) : Z := Z.of_nat (length s).

(** Truth value of a string: [if s] holds for the non-empty ones. *)
Definition truthy (s : str) : bool :=
  match s with [] => false | _ :: _ => true end.

(** *** Literals

    String constants of the source are written as they appear there and
    decoded from the UTF-8 bytes of the literal. *)

Fixpoint bytes (s : string) : list Z :=
  match s with
  | EmptyString => []
  | String a s' => Z.of_N (N_of_ascii a) :: bytes s'
  end.

Fixpoint utf8_decode (bs : list Z) : str :=
  match bs with
  | [] => []
  | b0 :: r0 =>
      if b0 <? 128 then b0 :: utf8_decode r0
      else match r0 with
      | [] => []
      | b1 :: r1 =>
          if b0 <? 224 then ((b0 - 192) * 64 + (b1 - 128)) :: utf8_decode r1
          else match r1 with
          | [] => []
          | b2 :: r2 =>
              if b0 <? 240
              then ((b0 - 224) * 4096 + (b1 - 128) * 64 + (b2 - 128))
                     :: utf8_decode r2
              else match r2 with
              | [] => []
              | b3 :: r3 =>
                  ((b0 - 240) * 262144 + (b1 - 128) * 4096
                   + (b2 - 128) * 64 + (b3 - 128)) :: utf8_decode r3
              end
          end
      end
  end.

Definition u (s : string) : str := utf8_decode (bytes s).

(** The double quote, which a literal cannot hold. *)
Definition dquote : char := 34.

(** *** [str.startswith], [str.find], [in] *)

Fixpoint startswith (s prefix : str) {struct prefix} : bool :=
  match prefix, s with
  | [], _ => true
  | _ :: _, [] => false
  | p :: prefix', c :: s' => (c =? p) && startswith s' prefix'
  end.

(** [find_from s sub i]: lowest offset of [sub] in [s], where [s] itself
    starts at offset [i]; [-1] when [sub] does not occur. *)
Fixpoint find_from (s sub : str) (i : Z) : Z :=
  if startswith s sub then i
  else match s with
       | [] => -1
       | _ :: s' => find_from s' sub (i + 1)
       end.

Definition find (s sub : str) : Z := find_from s sub 0.

(** [sub in s] *)
Definition contains (sub s : str) : bool := negb (find s sub =? -1).

(** *** Slicing [s[lo:hi]]

    Both bounds are given; a negative bound counts from the end, and
    every bound is clipped into [0 .. len s]. *)

Definition clip (n : Z) (i : Z) : Z :=
  if i <? 0 then Z.max 0 (i + n) else Z.min i n.

Definition slice (s : str) (lo hi : Z) : str :=
  let a := clip (len s) lo in
  let b := clip (len s) hi in
  firstn (Z.to_nat (b - a)) (skipn (Z.to_nat a) s).

(** [s[n:]] *)
Definition slice_from (s : str) (lo : Z) : str :=
  skipn (Z.to_nat (clip (len s) lo)) s.

(** [s[-1]] of a non-empty string ([None] stands for IndexError). *)
Definition last_char (s : str) : option char :=
  match rev s with [] => None | c :: _ => Some c end.

(** *** Whitespace: [str.isspace] of one code point, as [strip] uses it *)

Definition isspace (c : char) : bool :=
  ((9 <=? c) && (c <=? 13)) || ((28 <=? c) && (c <=? 32))
  || (c =? 133) || (c =? 160) || (c =? 5760)
  || ((8192 <=? c) && (c <=? 8202))
  || (c =? 8232) || (c =? 8233) || (c =? 8239) || (c =? 8287)
  || (c =? 12288).

Fixpoint lstrip (s : str) : str :=
  match s with
  | [] => []
  | c :: s' => if isspace c then lstrip s' else s
  end.

Definition rstrip (s : str) : str := rev (lstrip (rev s)).

Definition strip (s : str) : str := rstrip (lstrip s).

End Py.

(** ** Generation engine: [get_llm] and [AIWorker.run] *)

Module Engine.
Import Py.

(** What one call [engine(prompt, ...)] followed by
    [result["choices"][0]["text"]] amounts to: a text (possibly [None]),
    or an exception inside the [try] block, carried as [str(e)].  The
    sampling parameters are constants of the call and are not modelled. *)
Inductive completion : Type :=
| Text (raw : option str)
| Raise (e : str).

(** A constructed model, called on a prompt. *)
Definition Llama : Type := str -> completion.

(** What [get_llm] consults outside the program at one call:
    whether [llama_cpp] was imported, whether [MODEL_PATH] exists, and what
    the constructor [Llama(...)] would do ([None]: it raises). *)
Record host : Type := {
  HAS_LLAMA : bool;
  model_exists : bool;
  construct : option Llama
}.

(** The external actions of [get_llm], in the order they happen. *)
Inductive action : Type :=
| PathExists
| Construct.

(** [get_llm h llm]: the returned engine, the new value of the global
    [llm], and the actions performed. *)
Definition get_llm (h : host) (llm : option Llama)
  : option Llama * option Llama * list action :=
  if negb (HAS_LLAMA h) then (None, llm, [])
  else if negb (model_exists h) then (None, llm, [PathExists])
  else match llm with
       | None =>
           match construct h with
           | Some m => (Some m, Some m, [PathExists; Construct])
           | None => (None, None, [PathExists; Construct])
           end
       | Some m => (Some m, Some m, [PathExists])
       end.


(** *** Calls that overlap

    [ask_ai] starts a thread for every request and nothing serialises
    them, so calls of [get_llm] can overlap.  A call touches the global
    [llm] three times: at the test [llm is None], at the assignment once
    the constructor has returned, and at [return llm]; between these it
    only looks at the host.  [stage] says where a call stands. *)
Inductive stage : Type :=
| Entered
| Testing
| Constructing
| Returning
| Returned (r : option Llama).

Record call : Type := {
  on : host;
  at_stage : stage
}.

Definition move (c : call) (s : stage) : call :=
  {| on := on c; at_stage := s |}.

(** One step of a call: the call after the step and the new value of the
    global.  [Entered]: the two precondition tests.  [Testing]: the test
    [llm is None].  [Constructing]: the constructor, then the assignment,
    or the [except] branch.  [Returning]: [return llm]. *)
Definition advance (c : call) (llm : option Llama)
  : call * option Llama :=
  match at_stage c with
  | Entered =>
      if HAS_LLAMA (on c) && model_exists (on c)
      then (move c Testing, llm)
      else (move c (Returned None), llm)
  | Testing =>
      match llm with
      | None => (move c Constructing, llm)
      | Some _ => (move c Returning, llm)
      end
  | Constructing =>
      match construct (on c) with
      | Some m => (move c Returning, Some m)
      | None => (move c (Returned None), llm)
      end
  | Returning => (move c (Returned llm), llm)
  | Returned _ => (c, llm)
  end.

(** The global and the calls in flight. *)
Definition process : Type := option Llama * list call.

Fixpoint set_call (i : nat) (c : call) (cs : list call) : list call :=
  match cs, i with
  | [], _ => []
  | _ :: cs', O => c :: cs'
  | d :: cs', S i' => d :: set_call i' c cs'
  end.

(** The call number [i] takes one step. *)
Definition step (p : process) (i : nat) : process :=
  match nth_error (snd p) i with
  | Some c =>
      let (c', llm') := advance c (fst p) in
      (llm', set_call i c' (snd p))
  | None => p
  end.

(** An interleaving: the numbers of the calls in the order they step. *)
Definition interleave (order : list nat) (p : process) : process :=
  fold_left step order p.

(** A call on host [h] that has not begun. *)
Definition entering (h : host) : call :=
  {| on := h; at_stage := Entered |}.

Record AIWorker : Type := {
  question : str;
  fragment : str
}.

Definition nl : str := [10].

Definition UNAVAILABLE : str :=
  u "Локальный ИИ не настроен." ++ nl ++ nl
  ++ u "Проверь, что установлен пакет llama-cpp-python" ++ nl
  ++ u "и существует файл models/mistral.gguf рядом с программой.".

Definition prompt (w : AIWorker) : str :=
  u "
Ты юридический помощник по законодательству РФ.
Отвечай простым, понятным языком, но опирайся только на реальные законы РФ.
Если нет точной информации, честно напиши, что данных недостаточно
и порекомендуй обратиться к официальным источникам
(Консультант+, pravo.gov.ru и т.п.).

Ниже может быть фрагмент закона (если найден):

Контекст закона:
" ++ fragment w ++ u "

Вопрос пользователя:
" ++ question w ++ u "

Теперь дай развёрнутый, но по делу ответ от первого лица.
Не переписывай вопрос целиком. Не повторяй текст инструкции.
Ответ:
".

Definition PREFIXES : list str := [
  u "Ответ:";
  u "ответ:";
  u "Ответ пользователя:";
  u "Вопрос пользователя:";
  u "Вопрос:"
].

(** One turn of the cleaning loop. *)
Definition strip_prefix (text prefix : str) : str :=
  if startswith text prefix
  then lstrip (slice_from text (len prefix))
  else text.

Definition strip_prefixes (text : str) : str :=
  fold_left strip_prefix PREFIXES text.

Definition FALLBACK : str :=
  u "ИИ не смог сформулировать ответ. Попробуйте переформулировать вопрос.".

Definition TERMINAL : str := u ".?!…»" ++ [dquote] ++ u "'".

Definition ELLIPSIS : str := u "…".

(** [text and text[-1] not in TERMINAL] *)
Definition ends_strangely (text : str) : bool :=
  truthy text &&
  match last_char text with
  | Some c => negb (contains [c] TERMINAL)
  | None => false
  end.

(** The body of the [try] block after the engine has answered [raw]. *)
Definition postprocess (raw : option str) : str :=
  let text := strip (match raw with
                     | Some r => if truthy r then r else []
                     | None => []
                     end) in
  let text := strip_prefixes text in
  let text := if truthy text then text else FALLBACK in
  if ends_strangely text then text ++ ELLIPSIS else text.

Definition ERROR_PREFIX : str := u "Ошибка работы ИИ: ".

(** [AIWorker.run]: the strings emitted on [finished], in order, the new
    value of the global [llm], and the actions of [get_llm]. *)
Definition run (w : AIWorker) (h : host) (llm : option Llama)
  : list str * option Llama * list action :=
  let '(engine, llm', acts) := get_llm h llm in
  match engine with
  | None => ([UNAVAILABLE], llm', acts)
  | Some engine =>
      let text :=
        match engine (prompt w) with
        | Text raw => postprocess raw
        | Raise e => ERROR_PREFIX ++ e
        end in
      ([text], llm', acts)
  end.

Definition emitted (r : list str * option Llama * list action) : list str :=
  fst (fst r).

End Engine.

(** ** Fragment locator: [load_law], [detect_file], [find_article] *)

Module Locator.
Import Py.

(** The two tables of the Unicode character database that the locator
    consults through the Python runtime: [str.lower], and the class [\d]
    of [re] on [str] patterns. *)
Class Unicode : Type := {
  lower : str -> str;
  isdecimal : char -> bool
}.

Definition filename : Type := string.

(** The [laws/] directory: the decoded text of a file, or [None] when
    [open] or [read] raises. *)
Definition laws_dir : Type := filename -> option str.

(** Computations that read law files: a value and the names of the files
    read, in order. *)
Definition IO (A : Type) : Type := A * list filename.

Definition ret {A : Type} (a : A) : IO A := (a, []).

Definition bind {A B : Type} (m : IO A) (k : A -> IO B) : IO B :=
  let (a, r1) := m in
  let (b, r2) := k a in
  (b, r1 ++ r2).

Notation "x <- m ;; k" := (bind m (fun x => k))
  (at level 61, m at next level, right associativity).

Definition value {A : Type} (m : IO A) : A := fst m.
Definition reads {A : Type} (m : IO A) : list filename := snd m.

Definition LAWS_FILES : list filename := [
  "constitution_rf.txt";
  "gk_rf.txt";
  "uk_rf.txt";
  "koap_rf.txt";
  "law_police.txt";
  "law_consumer.txt"
]%string.

Definition load_law (fs : laws_dir) (name : filename) : IO str :=
  (match fs name with Some text => text | None => [] end, [name]).

(** [re.findall(r"\d+", s)]: the maximal runs of decimal digits, left to
    right; [cur] holds the run being read, reversed. *)
Definition flush (cur : str) : list str :=
  if truthy cur then [rev cur] else [].

Fixpoint findall_digits_from {U : Unicode} (s cur : str) : list str :=
  match s with
  | [] => flush cur
  | c :: s' =>
      if isdecimal c then findall_digits_from s' (c :: cur)
      else flush cur ++ findall_digits_from s' []
  end.

Definition findall_digits {U : Unicode} (s : str) : list str :=
  findall_digits_from s [].

Definition name_truthy (f : filename) : bool :=
  match f with EmptyString => false | String _ _ => true end.

Definition detect_file {U : Unicode} (q : str) : option filename :=
  let q := lower q in
  if contains (u "уголов") q || contains (u "ук") q then
    Some "uk_rf.txt"%string
  else if contains (u "коап") q || contains (u "административ") q then
    Some "koap_rf.txt"%string
  else if contains (u "гк") q || contains (u "граждан") q then
    Some "gk_rf.txt"%string
  else if contains (u "конституц") q then
    Some "constitution_rf.txt"%string
  else if contains (u "полици") q then
    Some "law_police.txt"%string
  else if contains (u "потребител") q then
    Some "law_consumer.txt"%string
  else None.

(** [full[max(0, idx - 80): idx + 900]] *)
Definition window (full : str) (idx : Z) : str :=
  slice full (Z.max 0 (idx - 80)) (idx + 900).

Definition ARTICLE : str := u "статья ".

(** The first tier of [find_article]: [None] when it falls through to the
    loop. *)
Definition precise {U : Unicode} (fs : laws_dir) (q : str)
  : IO (option (filename * str)) :=
  let nums := findall_digits q in
  let num := match nums with n :: _ => Some n | [] => None end in
  let codex := detect_file q in
  match num, codex with
  | Some num, Some codex =>
      if truthy num && name_truthy codex then
        full <- load_law fs codex ;;
        let low := lower full in
        let pattern := ARTICLE ++ num in
        let idx := find low pattern in
        if negb (idx =? -1) then ret (Some (codex, window full idx))
        else ret None
      else ret None
  | _, _ => ret None
  end.

(** The loop [for f in files] of [find_article]. *)
Fixpoint scan {U : Unicode} (fs : laws_dir) (q : str) (files : list filename)
  : IO (option filename * option str) :=
  match files with
  | [] => ret (None, None)
  | f :: files' =>
      full <- load_law fs f ;;
      if negb (truthy full) then scan fs q files'
      else
        let low := lower full in
        let idx := find low q in
        if negb (idx =? -1) then ret (Some f, Some (window full idx))
        else scan fs q files'
  end.

Definition find_article {U : Unicode} (fs : laws_dir) (query : str)
  (laws_ok : bool) : IO (option filename * option str) :=
  if negb laws_ok then ret (None, None)
  else
    let q := lower query in
    r <- precise fs q ;;
    match r with
    | Some (codex, frag) => ret (Some codex, Some frag)
    | None => scan fs q LAWS_FILES
    end.

(** *** A table for concrete runs

    [str.lower] and [\d] on text made of Basic Latin, the Cyrillic letters
    U+0400..U+045F and the letter U+0130, whose lowercase is the two code
    points U+0069 U+0307. *)
Definition lower_char (c : char) : str :=
  if (65 <=? c) && (c <=? 90) then [c + 32]
  else if c =? 304 then [105; 775]
  else if (1024 <=? c) && (c <=? 1039) then [c + 80]
  else if (1040 <=? c) && (c <=? 1071) then [c + 32]
  else [c].

Definition table : Unicode := {|
  lower := flat_map lower_char;
  isdecimal := fun c => (48 <=? c) && (c <=? 57)
|}.

End Locator.

(** ** Query coordinator: [Main.ask_ai] and [Main.ai_done] *)

Module Coordinator.
Import Py Engine Locator.

(** The part of [Main] the two methods touch: the flag computed at
    start-up, the display log, and the workers handed to a thread. *)
Record Main : Type := {
  laws_ok : bool;
  out : list str;
  started : list AIWorker
}.

Definition THINKING : str := nl ++ u "ИИ думает..." ++ nl.

Definition ask_ai {U : Unicode} (fs : laws_dir) (input : str) (self : Main)
  : IO Main :=
  let q := strip input in
  if negb (truthy q) then ret self
  else
    r <- find_article fs q (laws_ok self) ;;
    let frag := match snd r with
                | Some frag => if truthy frag then frag else []
                | None => []
                end in
    let worker := {| question := q; fragment := frag |} in
    ret {| laws_ok := laws_ok self;
           out := out self ++ [THINKING];
           started := started self ++ [worker] |}.

Definition ai_done (self : Main) (text : str) : Main :=
  {| laws_ok := laws_ok self;
     out := out self ++ [u "Ответ ИИ:" ++ nl ++ text ++ nl];
     started := started self |}.

(** Every string a worker emits reaches the connected slot [ai_done]. *)
Definition deliver (self : Main) (texts : list str) : Main :=
  fold_left ai_done texts self.

(** [self.out.append(text)] *)
Definition append (self : Main) (text : str) : Main :=
  {| laws_ok := laws_ok self;
     out := out self ++ [text];
     started := started self |}.

Definition NO_LAWS : str :=
  nl ++ u "Поиск: не найдены файлы законов в папке 'laws'." ++ nl.

Definition NOT_FOUND : str :=
  nl ++ u "Ничего не найдено в загруженных txt-файлах." ++ nl.

(** The f-string of the last branch of [do_search]; a [None] fragment
    would be printed as the word [None]. *)
Definition FOUND (fname : filename) (frag : option str) : str :=
  nl ++ u "Найдено в " ++ u fname ++ u ":" ++ nl
  ++ match frag with Some frag => frag | None => u "None" end ++ nl.

Definition do_search {U : Unicode} (fs : laws_dir) (input : str)
  (self : Main) : IO Main :=
  let q := strip input in
  if negb (truthy q) then ret self
  else
    r <- find_article fs q (laws_ok self) ;;
    let fname := fst r in
    let frag := snd r in
    if negb (match fname with Some f => name_truthy f | None => false end)
    then
      if negb (laws_ok self) then ret (append self NO_LAWS)
      else ret (append self NOT_FOUND)
    else
      match fname with
      | Some f => ret (append self (FOUND f frag))
      | None => ret self
      end.

(** What [Main.__init__] asks the file system to set [laws_ok]: whether
    the [laws] directory exists, and whether the path of a law file in it
    exists. *)
Record disk : Type := {
  laws_dir_exists : bool;
  law_file_exists : filename -> bool
}.

Definition init_laws_ok (d : disk) : bool :=
  laws_dir_exists d && existsb (law_file_exists d) LAWS_FILES.

(** The slots of [Main] that the event loop calls, one at a time: the two
    buttons (Return in the input field is the second) and the [finished]
    signal of a worker. *)
Inductive slot : Type :=
| Search (input : str)
| Ask (input : str)
| Done (text : str).

Definition handle {U : Unicode} (fs : laws_dir) (self : Main) (e : slot)
  : Main :=
  match e with
  | Search input => value (do_search fs input self)
  | Ask input => value (ask_ai fs input self)
  | Done text => ai_done self text
  end.

(** The non-blank [Ask] events among [es]. *)
Definition asked (es : list slot) : list slot :=
  filter (fun e => match e with
                   | Ask input => truthy (strip input)
                   | _ => false
                   end) es.

End Coordinator.

(** ** Vocabulary of the specification *)

Module Spec.
Import Py Engine Locator.

(** [sub] occurs in [s] as a contiguous substring. *)
Definition occurs (sub s : str) : Prop :=
  exists pre post, s = pre ++ sub ++ post.

(** [sub] occurs in [s] at offset [i]. *)
Definition occurs_at (sub s : str) (i : Z) : Prop :=
  exists pre post, s = pre ++ sub ++ post /\ len pre = i.

(** A fragment [w] cut from offset [start] of a document covers a match of
    [pattern] at offset [i]: the whole match lies inside the fragment. *)
Definition covers (start : Z) (w : str) (i : Z) (pattern : str) : Prop :=
  start <= i /\ i + len pattern <= start + len w.

(** The last character of [s] is a terminal punctuation mark. *)
Definition terminated (s : str) : Prop :=
  exists body c, s = body ++ [c] /\ In c TERMINAL.

(** [xs] is [ys] with some elements left out, order kept. *)
Inductive subseq {A : Type} : list A -> list A -> Prop :=
| subseq_nil : subseq [] []
| subseq_skip x xs ys : subseq xs ys -> subseq xs (x :: ys)
| subseq_keep x xs ys : subseq xs ys -> subseq (x :: xs) (x :: ys).

(** [peel ps text rest]: [text] is the prefixes [ps], each followed by a
    run of whitespace, and then [rest]. *)
Inductive peel : list str -> str -> str -> Prop :=
| peel_done text : peel [] text text
| peel_one p ps ws text rest :
    forallb isspace ws = true ->
    peel ps text rest ->
    peel (p :: ps) (p ++ ws ++ text) rest.

(** [cleaned ps text rest]: going through the prefixes [ps] in order,
    a prefix that what is left of the text starts with is removed together
    with all the whitespace after it, a prefix it does not start with
    leaves it as it is, and [rest] is what is left at the end. *)
Inductive cleaned : list str -> str -> str -> Prop :=
| cleaned_done text : cleaned [] text text
| cleaned_kept p ps text rest :
    (forall r, text <> p ++ r) ->
    cleaned ps text rest ->
    cleaned (p :: ps) text rest
| cleaned_removed p ps ws text rest :
    forallb isspace ws = true ->
    (forall c t, text = c :: t -> isspace c = false) ->
    cleaned ps text rest ->
    cleaned (p :: ps) (p ++ ws ++ text) rest.

(** How a call [c'] relates to the same call [c] at an earlier time
    when the global held an engine all the while: it is on the same host,
    it has not gone back to the entry nor newly entered the constructor,
    and it has returned [None] only if its preconditions fail, or its own
    construction, already under way, fails. *)
Definition after_loaded (c c' : call) : Prop :=
  on c' = on c
  /\ (at_stage c' = Entered -> at_stage c = Entered)
  /\ (at_stage c' = Constructing -> at_stage c = Constructing)
  /\ (at_stage c' = Returned None ->
      at_stage c = Returned None
      \/ (at_stage c = Entered
          /\ HAS_LLAMA (on c) && model_exists (on c) = false)
      \/ (at_stage c = Constructing /\ construct (on c) = None)).

(** The engine [m] has a known origin in a process that began with the
    global [llm] and the calls [cs]: it was the global, or the constructor
    of one of the calls gives it, or a call had already returned it. *)
Definition built (llm : option Llama) (cs : list call) (m : Llama) : Prop :=
  llm = Some m
  \/ exists c, In c cs
               /\ (construct (on c) = Some m
                   \/ at_stage c = Returned (Some m)).

(** The post-processing removes at most one prefix: its result is the
    text itself or the text less one listed prefix and the whitespace
    after it. *)
Definition removes_at_most_one (text : str) : Prop :=
  strip_prefixes text = text
  \/ exists p, In p PREFIXES /\ peel [p] text (strip_prefixes text).

(** The fallback tier as the specification words it: the first document,
    in the order of [LAWS_FILES], whose lowercased content contains the
    lowercased query, with the window around the first match. *)
Definition text_of (fs : laws_dir) (f : filename) : str :=
  match fs f with Some text => text | None => [] end.

(** The classification as an ordered table: the categories in the order
    [detect_file] tests them, each with its trigger substrings. *)
Definition CATEGORIES : list (filename * list str) := [
  ("uk_rf.txt"%string, [u "уголов"; u "ук"]);
  ("koap_rf.txt"%string, [u "коап"; u "административ"]);
  ("gk_rf.txt"%string, [u "гк"; u "граждан"]);
  ("constitution_rf.txt"%string, [u "конституц"]);
  ("law_police.txt"%string, [u "полици"]);
  ("law_consumer.txt"%string, [u "потребител"])
].

Definition classify {U : Unicode} (q : str) : option filename :=
  option_map fst
    (List.find (fun c => existsb (fun t => contains t (lower q)) (snd c))
       CATEGORIES).

Definition first_containing {U : Unicode} (fs : laws_dir) (q : str)
  : option filename * option str :=
  match List.find (fun f => contains q (lower (text_of fs f))) LAWS_FILES with
  | Some f =>
      (Some f, Some (window (text_of fs f) (find (lower (text_of fs f)) q)))
  | None => (None, None)
  end.

End Spec.

(** ** Inputs of the examples *)

Module Examples.
Import Py Engine Locator Coordinator.

Definition only (name : filename) (text : str) : laws_dir :=
  fun f => if String.eqb f name then Some text else None.

(** An engine whose call raises [RuntimeError("boom")]. *)
Definition failing_engine : Llama := fun _ => Raise (u "boom").

(** An engine that echoes an answer label twice. *)
Definition echoing_engine : Llama :=
  fun _ => Text (Some (u "Ответ: ответ: Привет")).

Definition ready (m : Llama) : host :=
  {| HAS_LLAMA := true; model_exists := true; construct := Some m |}.

(** Library and model file present, the constructor raises. *)
Definition broken : host :=
  {| HAS_LLAMA := true; model_exists := true; construct := None |}.

Definition worker : AIWorker :=
  {| question := u "Что такое кража?"; fragment := [] |}.

Definition fresh : Main :=
  {| laws_ok := true; out := []; started := [] |}.

(** [uk_rf.txt] holding article 158 only. *)
Definition uk_158 : laws_dir :=
  only "uk_rf.txt"%string (u "Статья 158. Кража").

(** [uk_rf.txt] whose article 5 follows a hundred letters U+0130. *)
Definition uk_dotted : laws_dir :=
  only "uk_rf.txt"%string (repeat 304 100 ++ u "Статья 5").

(** An article number of 900 digits, and [uk_rf.txt] holding it. *)
Definition long_number : str := repeat 49 900.

Definition uk_long : laws_dir :=
  only "uk_rf.txt"%string (u "Статья " ++ long_number).

End Examples.

(** * Properties *)

(** ** Python strings *)

Module PyFacts.
Import Py Spec.

Lemma len_nonneg (s : str) : 0 <= len s.
Proof. unfold len. lia. Qed.

Lemma len_app (s t : str) : len (s ++ t) = len s + len t.
Proof. unfold len. rewrite length_app. lia. Qed.

Lemma len_cons (c : char) (s : str) : len (c :: s) = 1 + len s.
Proof. unfold len. simpl length. lia. Qed.

Lemma len_nil : len [] = 0.
Proof. reflexivity. Qed.

Lemma truthy_true (s : str) : truthy s = true <-> s <> [].
Proof. destruct s; simpl; split; intros; congruence. Qed.

Lemma truthy_false (s : str) : truthy s = false <-> s = [].
Proof. destruct s; simpl; split; intros; congruence. Qed.

Lemma startswith_app (p r : str) : startswith (p ++ r) p = true.
Proof.
  induction p as [|c p IH]; simpl; [reflexivity|].
  now rewrite Z.eqb_refl, IH.
Qed.

Lemma startswith_inv (s p : str) :
  startswith s p = true -> exists r, s = p ++ r.
Proof.
  revert s. induction p as [|c p IH]; intros s Hs.
  - now exists s.
  - destruct s as [|d s]; simpl in Hs; [discriminate|].
    apply andb_true_iff in Hs as [Hd Hp].
    apply Z.eqb_eq in Hd. subst d.
    destruct (IH _ Hp) as [r ->]. now exists r.
Qed.

(** [find] answers [-1] or an offset at which the string occurs. *)
Lemma find_from_range (s sub : str) (i : Z) :
  0 <= i ->
  find_from s sub i = -1
  \/ (i <= find_from s sub i /\ find_from s sub i + len sub <= i + len s).
Proof.
  revert i. induction s as [|c s IH]; intros i Hi; simpl find_from.
  - destruct sub; simpl; [right; rewrite len_nil; lia | now left].
  - destruct (startswith (c :: s) sub) eqn:Hp.
    + right. apply startswith_inv in Hp as [r Hr].
      rewrite Hr, len_app. pose proof (len_nonneg r). lia.
    + destruct (IH (i + 1) ltac:(lia)) as [H | H]; [now left | right].
      rewrite len_cons. lia.
Qed.

Lemma find_from_found (s sub : str) (i : Z) :
  0 <= i -> find_from s sub i <> -1 ->
  occurs_at sub s (find_from s sub i - i)
  /\ forall j, occurs_at sub s j -> find_from s sub i - i <= j.
Proof.
  revert i. induction s as [|c s IH]; intros i Hi; simpl find_from.
  - destruct sub as [|d sub]; simpl; [intros _ | congruence].
    split.
    + exists [], []. split; [reflexivity | rewrite len_nil; lia].
    + intros j (pre & post & _ & <-). pose proof (len_nonneg pre). lia.
  - destruct (startswith (c :: s) sub) eqn:Hp.
    + intros _. split.
      * apply startswith_inv in Hp as [r Hr].
        exists [], r. split; [exact Hr | rewrite len_nil; lia].
      * intros j (pre & post & _ & <-). pose proof (len_nonneg pre). lia.
    + intros Hf. destruct (IH (i + 1) ltac:(lia) Hf) as [Hat Hmin].
      split.
      * destruct Hat as (pre & post & -> & Hl).
        exists (c :: pre), post. split; [reflexivity|].
        rewrite len_cons. lia.
      * intros j (pre & post & Hs & <-).
        destruct pre as [|d pre].
        -- simpl in Hs. rewrite Hs, startswith_app in Hp. discriminate.
        -- injection Hs as -> ->.
           specialize (Hmin (len pre)).
           rewrite len_cons.
           assert (occurs_at sub (pre ++ sub ++ post) (len pre))
             by (now exists pre, post).
           specialize (Hmin H). lia.
Qed.

Lemma find_from_absent (s sub : str) (i : Z) :
  0 <= i -> find_from s sub i = -1 -> ~ occurs sub s.
Proof.
  revert i. induction s as [|c s IH]; intros i Hi; simpl find_from.
  - destruct sub as [|d sub]; simpl; [lia|].
    intros _ (pre & post & Hs). destruct pre; discriminate.
  - destruct (startswith (c :: s) sub) eqn:Hp; [lia|].
    intros Hf (pre & post & Hs).
    destruct pre as [|d pre].
    + simpl in Hs. rewrite Hs, startswith_app in Hp. discriminate.
    + injection Hs as -> ->.
      apply (IH (i + 1) ltac:(lia) Hf). now exists pre, post.
Qed.

Lemma find_nonneg (s sub : str) : find s sub <> -1 -> 0 <= find s sub.
Proof.
  unfold find. intros H.
  destruct (find_from_range s sub 0 ltac:(lia)); [contradiction | lia].
Qed.

Lemma find_fits (s sub : str) :
  find s sub <> -1 -> find s sub + len sub <= len s.
Proof.
  unfold find. intros H.
  destruct (find_from_range s sub 0 ltac:(lia)); [contradiction | lia].
Qed.

Lemma find_first (s sub : str) :
  find s sub <> -1 ->
  occurs_at sub s (find s sub)
  /\ forall j, occurs_at sub s j -> find s sub <= j.
Proof.
  unfold find. intros H.
  destruct (find_from_found s sub 0 ltac:(lia) H) as [Hat Hmin].
  rewrite Z.sub_0_r in Hat. split; [exact Hat|].
  intros j Hj. specialize (Hmin j Hj). lia.
Qed.

Lemma contains_occurs (sub s : str) :
  contains sub s = true <-> occurs sub s.
Proof.
  unfold contains. rewrite negb_true_iff, Z.eqb_neq. split.
  - intros H. destruct (find_first s sub H) as [(pre & post & Hs & _) _].
    now exists pre, post.
  - intros Ho Hf. now apply (find_from_absent s sub 0 ltac:(lia) Hf).
Qed.

(** A one-character string is contained in [s] when the character is
    listed in it. *)
Lemma contains_char (c : char) (s : str) :
  contains [c] s = true <-> In c s.
Proof.
  rewrite contains_occurs. split.
  - intros (pre & post & ->). apply in_or_app. right. now left.
  - intros H. apply in_split in H as (pre & post & ->). now exists pre, post.
Qed.

(** *** Slices with bounds that are not negative *)

Lemma clip_nonneg (n i : Z) : 0 <= i -> clip n i = Z.min i n.
Proof.
  intros H. unfold clip. destruct (Z.ltb_spec i 0); [lia | reflexivity].
Qed.

Lemma slice_split (s : str) (lo hi : Z) :
  0 <= lo -> 0 <= hi ->
  exists pre post,
    s = pre ++ slice s lo hi ++ post
    /\ len pre = Z.min lo (len s)
    /\ len (slice s lo hi) = Z.max 0 (Z.min hi (len s) - Z.min lo (len s)).
Proof.
  intros Hlo Hhi. unfold slice.
  rewrite !clip_nonneg by assumption.
  set (a := Z.to_nat (Z.min lo (len s))).
  set (k := Z.to_nat (Z.min hi (len s) - Z.min lo (len s))).
  exists (firstn a s), (skipn k (skipn a s)).
  pose proof (len_nonneg s) as Hn.
  assert (Ha : (a <= length s)%nat) by (unfold a, len in *; lia).
  split; [|split].
  - now rewrite firstn_skipn, firstn_skipn.
  - unfold len at 1. rewrite length_firstn. unfold a, len in *. lia.
  - unfold len at 1. rewrite length_firstn, length_skipn.
    unfold k, a, len in *. lia.
Qed.

Lemma lstrip_split (s : str) :
  exists ws, s = ws ++ lstrip s /\ forallb isspace ws = true.
Proof.
  induction s as [|c s (ws & Hs & Hws)]; simpl.
  - now exists [].
  - destruct (isspace c) eqn:Hc.
    + exists (c :: ws). simpl. rewrite Hc, Hws. split; [congruence | reflexivity].
    + now exists [].
Qed.

Lemma slice_from_app (p r : str) : slice_from (p ++ r) (len p) = r.
Proof.
  unfold slice_from. rewrite clip_nonneg by apply len_nonneg.
  rewrite len_app. pose proof (len_nonneg r).
  replace (Z.min (len p) (len p + len r)) with (len p) by lia.
  unfold len. rewrite Nat2Z.id.
  now rewrite skipn_app, skipn_all, Nat.sub_diag.
Qed.

Lemma last_char_app (s : str) (c : char) : last_char (s ++ [c]) = Some c.
Proof. unfold last_char. now rewrite rev_unit. Qed.

Lemma last_char_some (s : str) (c : char) :
  last_char s = Some c -> exists body, s = body ++ [c].
Proof.
  unfold last_char. intros H.
  destruct (rev s) as [|d r] eqn:Hr; [discriminate|].
  injection H as ->. exists (rev r).
  rewrite <- (rev_involutive s), Hr. reflexivity.
Qed.

End PyFacts.

(** ** Generation engine *)

Module EngineFacts.
Import Py Engine Spec Examples PyFacts.

(** *** The engine handle *)

(** Case analysis on everything one call of [get_llm] looks at. *)
Ltac get_llm_cases h llm :=
  unfold get_llm;
  destruct (HAS_LLAMA h), (model_exists h), llm, (construct h); simpl.

Lemma get_llm_ready (h : host) (m : Llama) :
  HAS_LLAMA h = true -> model_exists h = true ->
  get_llm h (Some m) = (Some m, Some m, [PathExists]).
Proof. intros H1 H2. unfold get_llm. now rewrite H1, H2. Qed.


(** The global holds exactly what a successful call returned. *)
Lemma get_llm_returns_global (h : host) (llm r llm' : option Llama)
  (acts : list action) :
  get_llm h llm = (r, llm', acts) -> r = None \/ r = llm'.
Proof. get_llm_cases h llm; intros [= <- <- <-]; auto. Qed.







(** *** Post-processing *)

Lemma ELLIPSIS_terminal : ELLIPSIS = [8230] /\ In 8230 TERMINAL.
Proof. split; [reflexivity | vm_compute; auto 10]. Qed.

(** On the path where the engine answers, the text is never empty and
    ends in a terminal punctuation mark. *)
Lemma postprocess_terminated (raw : option str) :
  postprocess raw <> [] /\ terminated (postprocess raw).
Proof.
  unfold postprocess.
  set (cleaned := strip_prefixes _).
  set (text := if truthy cleaned then cleaned else FALLBACK).
  assert (Ht : truthy text = true).
  { unfold text. destruct (truthy cleaned) eqn:E; [exact E | reflexivity]. }
  unfold ends_strangely. rewrite Ht. simpl andb.
  destruct (last_char text) as [c|] eqn:Hl.
  - destruct (contains [c] TERMINAL) eqn:Hc; simpl negb; cbv iota.
    + split; [now apply truthy_true|].
      apply last_char_some in Hl as [body ->].
      exists body, c. split; [reflexivity | now apply contains_char].
    + destruct ELLIPSIS_terminal as [-> Hin]. split.
      * intros H. apply app_eq_nil in H as [_ H]. discriminate.
      * now exists text, 8230.
  - split; [now apply truthy_true|].
    destruct text; [discriminate|].
    unfold last_char in Hl. simpl in Hl.
    destruct (rev text ++ [c]) eqn:E; [|discriminate].
    apply app_eq_nil in E as [_ E]. discriminate.
Qed.

Lemma lstrip_spaces (ws s : str) :
  forallb isspace ws = true -> lstrip (ws ++ s) = lstrip s.
Proof.
  induction ws as [|c ws IH]; simpl; [reflexivity|].
  intros H. apply andb_true_iff in H as [-> H]. auto.
Qed.

Lemma peel_one_inv (p text rest : str) :
  peel [p] text rest ->
  startswith text p = true
  /\ lstrip (slice_from text (len p)) = lstrip rest.
Proof.
  intros H. inversion H as [|p' ps ws text' rest' Hws Hrest]; subst.
  inversion Hrest; subst.
  split; [apply startswith_app|].
  rewrite slice_from_app. now apply lstrip_spaces.
Qed.

(** (C3, as stated) The claim is that at most one prefix is removed.  From
    a text that opens with two of the listed labels the loop removes
    both. *)
Lemma strip_prefixes_removes_two :
  strip_prefixes (u "Ответ: ответ: Привет") = u "Привет"
  /\ ~ removes_at_most_one (u "Ответ: ответ: Привет").
Proof.
  split; [reflexivity|].
  intros [H | (p & Hp & H)].
  - vm_compute in H. discriminate.
  - apply peel_one_inv in H as [Hs Hl].
    unfold PREFIXES in Hp. simpl in Hp.
    repeat (destruct Hp as [<- | Hp]);
      [vm_compute in Hs, Hl; congruence .. | contradiction].
Qed.

Lemma fold_strip_prefix_peel (ps : list str) (text : str) :
  exists removed,
    subseq removed ps /\ peel removed text (fold_left strip_prefix ps text).
Proof.
  revert text. induction ps as [|p ps IH]; intros text; simpl.
  - exists []. split; constructor.
  - unfold strip_prefix at 2.
    destruct (startswith text p) eqn:Hs.
    + apply startswith_inv in Hs as [r ->].
      rewrite slice_from_app.
      destruct (lstrip_split r) as (ws & Hr & Hws).
      destruct (IH (lstrip r)) as (removed & Hsub & Hpeel).
      exists (p :: removed). split; [now constructor|].
      rewrite Hr at 1. now constructor.
    + destruct (IH text) as (removed & Hsub & Hpeel).
      exists removed. split; [now constructor | exact Hpeel].
Qed.

Lemma subseq_length {A : Type} (xs ys : list A) :
  subseq xs ys -> (length xs <= length ys)%nat.
Proof. induction 1; simpl; lia. Qed.

Lemma peel_suffix (ps : list str) (text rest : str) :
  peel ps text rest -> exists removed, text = removed ++ rest.
Proof.
  induction 1 as [text | p ps ws text rest _ _ [removed ->]].
  - now exists [].
  - exists (p ++ ws ++ removed). now rewrite <- !app_assoc.
Qed.

Lemma lstrip_head (s : str) (c : char) (t : str) :
  lstrip s = c :: t -> isspace c = false.
Proof.
  induction s as [|d s IH]; simpl; [discriminate|].
  destruct (isspace d) eqn:Hd; [exact IH|].
  now intros [= <- _].
Qed.

Lemma fold_strip_prefix_cleaned (ps : list str) (text : str) :
  cleaned ps text (fold_left strip_prefix ps text).
Proof.
  revert text. induction ps as [|p ps IH]; intros text; simpl.
  - constructor.
  - unfold strip_prefix at 2.
    destruct (startswith text p) eqn:Hs.
    + apply startswith_inv in Hs as [r ->].
      rewrite slice_from_app.
      destruct (lstrip_split r) as (ws & Hr & Hws).
      rewrite Hr at 1.
      apply cleaned_removed; [exact Hws | apply lstrip_head | apply IH].
    + apply cleaned_kept; [|apply IH].
      intros r ->. rewrite startswith_app in Hs. discriminate.
Qed.

(** A text splits in one way only into a run of whitespace and a rest
    that does not begin with whitespace. *)
Lemma spaces_split_unique (ws ws' t t' : str) :
  forallb isspace ws = true -> forallb isspace ws' = true ->
  (forall c r, t = c :: r -> isspace c = false) ->
  (forall c r, t' = c :: r -> isspace c = false) ->
  ws ++ t = ws' ++ t' -> ws = ws' /\ t = t'.
Proof.
  revert ws'. induction ws as [|c ws IH]; intros [|c' ws'] Hw Hw' Ht Ht' E;
    simpl in *.
  - now split.
  - apply andb_true_iff in Hw' as [Hc _].
    rewrite (Ht c' (ws' ++ t') E) in Hc. discriminate.
  - apply andb_true_iff in Hw as [Hc _].
    rewrite (Ht' c (ws ++ t) (eq_sym E)) in Hc. discriminate.
  - injection E as -> E.
    apply andb_true_iff in Hw as [_ Hw].
    apply andb_true_iff in Hw' as [_ Hw'].
    destruct (IH ws' Hw Hw' Ht Ht' E) as [-> ->]. now split.
Qed.

Lemma cleaned_functional (ps : list str) (text r1 r2 : str) :
  cleaned ps text r1 -> cleaned ps text r2 -> r1 = r2.
Proof.
  intros H1. revert r2.
  induction H1 as [text | p ps text rest Hno _ IH
                  | p ps ws text rest Hws Hhead _ IH]; intros r2 H2.
  - now inversion H2.
  - inversion H2; subst.
    + now apply IH.
    + exfalso. eapply Hno. reflexivity.
  - inversion H2; subst.
    + match goal with
      | Hno : forall r, _ <> _ |- _ => exfalso; eapply Hno; reflexivity
      end.
    + match goal with
      | E : p ++ _ = p ++ _ |- _ => apply app_inv_head in E
      end.
      match goal with
      | E : ?ws' ++ ?text' = ws ++ text,
        Hws' : forallb isspace ?ws' = true,
        Hhead' : forall c t, ?text' = c :: t -> isspace c = false |- _ =>
          destruct (spaces_split_unique ws' ws text' text
                      Hws' Hws Hhead' Hhead E) as [_ ->]
      end.
      now apply IH.
Qed.

(** (C3, amended) The loop tries each listed prefix once, in the order of
    the list: a prefix that what is left of the text starts with is
    removed, character for character, together with all the whitespace
    after it, and a prefix it does not start with leaves it as it is; this
    fixes the result.  So at most one occurrence of each prefix and at
    most five in all are removed, and nothing but the start of the text
    is removed. *)
Theorem strip_prefixes_peels (text : str) :
  cleaned PREFIXES text (strip_prefixes text)
  /\ (forall rest, cleaned PREFIXES text rest -> rest = strip_prefixes text)
  /\ exists removed,
       subseq removed PREFIXES
       /\ (length removed <= 5)%nat
       /\ peel removed text (strip_prefixes text)
       /\ exists start, text = start ++ strip_prefixes text.
Proof.
  pose proof (fold_strip_prefix_cleaned PREFIXES text) as Hc.
  split; [exact Hc|]. split.
  - intros rest Hrest.
    exact (cleaned_functional PREFIXES text rest _ Hrest Hc).
  - destruct (fold_strip_prefix_peel PREFIXES text) as (removed & Hsub & Hp).
    exists removed. repeat split; try assumption.
    + apply subseq_length in Hsub. exact Hsub.
    + now apply peel_suffix in Hp.
Qed.

(** *** [AIWorker.run] *)

Lemma run_unavailable (w : AIWorker) (h : host) (llm : option Llama) :
  fst (fst (get_llm h llm)) = None ->
  emitted (run w h llm) = [UNAVAILABLE].
Proof.
  unfold run, emitted. destruct (get_llm h llm) as [[r llm'] acts].
  simpl. now intros ->.
Qed.

Lemma run_answer (w : AIWorker) (h : host) (llm : option Llama)
  (m : Llama) (raw : option str) :
  fst (fst (get_llm h llm)) = Some m -> m (prompt w) = Text raw ->
  emitted (run w h llm) = [postprocess raw].
Proof.
  unfold run, emitted. destruct (get_llm h llm) as [[r llm'] acts].
  simpl. now intros -> ->.
Qed.

Lemma run_fault (w : AIWorker) (h : host) (llm : option Llama)
  (m : Llama) (e : str) :
  fst (fst (get_llm h llm)) = Some m -> m (prompt w) = Raise e ->
  emitted (run w h llm) = [ERROR_PREFIX ++ e].
Proof.
  unfold run, emitted. destruct (get_llm h llm) as [[r llm'] acts].
  simpl. now intros -> ->.
Qed.

(** Every path of [run] emits exactly one string. *)
Lemma run_emits (w : AIWorker) (h : host) (llm : option Llama) :
  emitted (run w h llm) =
    [match fst (fst (get_llm h llm)) with
     | None => UNAVAILABLE
     | Some engine =>
         match engine (prompt w) with
         | Text raw => postprocess raw
         | Raise e => ERROR_PREFIX ++ e
         end
     end].
Proof.
  destruct (fst (fst (get_llm h llm))) as [m|] eqn:Hg.
  - destruct (m (prompt w)) as [raw | e] eqn:Hm.
    + now apply run_answer with m.
    + now apply run_fault with m.
  - now apply run_unavailable.
Qed.

Lemma UNAVAILABLE_terminated : UNAVAILABLE <> [] /\ terminated UNAVAILABLE.
Proof.
  split; [discriminate|].
  exists (removelast UNAVAILABLE), 46. split; [reflexivity|].
  vm_compute. auto.
Qed.

(** (C1) The answer is to end in terminal punctuation on every path.  When
    the engine call raises an exception whose text is [boom], [run] emits
    the error label followed by that text: non-empty, holding the text,
    and ending in the letter [m] with nothing appended; the check that
    appends the ellipsis sits inside the [try] block and is skipped. *)
Theorem run_fault_not_terminated :
  emitted (run worker (ready failing_engine) None)
    = [u "Ошибка работы ИИ: boom"]
  /\ last_char (u "Ошибка работы ИИ: boom") = Some 109
  /\ ~ terminated (u "Ошибка работы ИИ: boom").
Proof.
  split; [reflexivity | split; [reflexivity|]].
  intros (body & c & Hs & Hc).
  assert (Hl : last_char (u "Ошибка работы ИИ: boom") = Some c)
    by (rewrite Hs; apply last_char_app).
  vm_compute in Hl. injection Hl as <-.
  vm_compute in Hc. intuition discriminate.
Qed.

End EngineFacts.

(** ** Fragment locator *)

Module LocatorFacts.
Import Py Locator Spec Examples PyFacts.

Section Generic.
Context {U : Unicode}.

Lemma value_bind {A B : Type} (m : IO A) (k : A -> IO B) :
  value (bind m k) = value (k (value m)).
Proof.
  unfold bind, value. destruct m as [a r1]. simpl.
  now destruct (k a).
Qed.

Lemma reads_bind {A B : Type} (m : IO A) (k : A -> IO B) :
  reads (bind m k) = reads m ++ reads (k (value m)).
Proof.
  unfold bind, value, reads. destruct m as [a r1]. simpl.
  now destruct (k a).
Qed.

Lemma value_load_law (fs : laws_dir) (f : filename) :
  value (load_law fs f) = text_of fs f.
Proof. reflexivity. Qed.

(** *** Digit runs and categories *)

Lemma flush_truthy (cur : str) : Forall (fun r => truthy r = true) (flush cur).
Proof.
  unfold flush. destruct cur as [|c cur]; simpl; constructor; [|constructor].
  destruct (rev cur ++ [c]) eqn:E; [|reflexivity].
  apply app_eq_nil in E as [_ E]. discriminate.
Qed.

Lemma findall_digits_from_truthy (s cur : str) :
  Forall (fun r => truthy r = true) (findall_digits_from s cur).
Proof.
  revert cur. induction s as [|c s IH]; intros cur; simpl.
  - apply flush_truthy.
  - destruct (isdecimal c); [apply IH|].
    apply Forall_app. split; [apply flush_truthy | apply IH].
Qed.

Lemma findall_digits_head_truthy (s n : str) (rest : list str) :
  findall_digits s = n :: rest -> truthy n = true.
Proof.
  intros H. pose proof (findall_digits_from_truthy s []) as F.
  unfold findall_digits in H. rewrite H in F. now inversion F.
Qed.

Lemma detect_file_truthy (q : str) (c : filename) :
  detect_file q = Some c -> name_truthy c = true.
Proof.
  unfold detect_file.
  repeat match goal with
         | |- context [if ?b then _ else _] => destruct b
         end; intros [= <-]; reflexivity.
Qed.

Lemma detect_file_listed (q : str) (c : filename) :
  detect_file q = Some c -> In c LAWS_FILES.
Proof.
  unfold detect_file.
  repeat match goal with
         | |- context [if ?b then _ else _] => destruct b
         end; intros [= <-]; simpl; auto 10.
Qed.

(** *** The first tier *)

Lemma precise_value (fs : laws_dir) (q n : str) (rest : list str)
  (c : filename) :
  findall_digits q = n :: rest -> detect_file q = Some c ->
  value (precise fs q) =
    if negb (find (lower (text_of fs c)) (ARTICLE ++ n) =? -1)
    then Some (c, window (text_of fs c) (find (lower (text_of fs c))
                                           (ARTICLE ++ n)))
    else None.
Proof.
  intros Hn Hc. unfold precise. rewrite Hn, Hc.
  rewrite (findall_digits_head_truthy _ _ _ Hn), (detect_file_truthy _ _ Hc).
  simpl andb. cbv iota. rewrite value_bind, value_load_law.
  now destruct (negb _).
Qed.

Lemma precise_found (fs : laws_dir) (q : str) (f : filename) (frag : str) :
  value (precise fs q) = Some (f, frag) ->
  exists n,
    find (lower (text_of fs f)) (ARTICLE ++ n) <> -1
    /\ frag = window (text_of fs f) (find (lower (text_of fs f))
                                       (ARTICLE ++ n)).
Proof.
  unfold precise.
  destruct (findall_digits q) as [|n rest]; [discriminate|].
  destruct (detect_file q) as [c|]; [|discriminate].
  destruct (truthy n && name_truthy c); [|discriminate].
  rewrite value_bind, value_load_law.
  destruct (find (lower (text_of fs c)) (ARTICLE ++ n) =? -1) eqn:E;
    simpl; [discriminate|].
  intros [= <- <-]. exists n. split; [now apply Z.eqb_neq | reflexivity].
Qed.

Lemma precise_falls_through (fs : laws_dir) (q : str) :
  findall_digits q = []
  \/ detect_file q = None
  \/ (exists n rest c,
        findall_digits q = n :: rest /\ detect_file q = Some c
        /\ ~ occurs (ARTICLE ++ n) (lower (text_of fs c))) ->
  value (precise fs q) = None.
Proof.
  intros [H | [H | (n & rest & c & Hn & Hc & Hno)]].
  - unfold precise. now rewrite H.
  - unfold precise. rewrite H. now destruct (findall_digits q).
  - rewrite (precise_value fs q n rest c Hn Hc).
    destruct (find _ _ =? -1) eqn:E; [reflexivity|].
    exfalso. apply Hno. apply contains_occurs.
    unfold contains. now rewrite E.
Qed.

(** *** The loop *)

Lemma scan_cons (fs : laws_dir) (q : str) (f : filename)
  (files : list filename) :
  scan fs q (f :: files) =
    full <- load_law fs f ;;
    if negb (truthy full) then scan fs q files
    else if negb (find (lower full) q =? -1)
         then ret (Some f, Some (window full (find (lower full) q)))
         else scan fs q files.
Proof. reflexivity. Qed.

Lemma scan_value (fs : laws_dir) (q : str) (files : list filename) :
  value (scan fs q files) =
    match List.find (fun f => truthy (text_of fs f)
                              && contains q (lower (text_of fs f))) files with
    | Some f =>
        (Some f,
         Some (window (text_of fs f) (find (lower (text_of fs f)) q)))
    | None => (None, None)
    end.
Proof.
  induction files as [|f files IH]; [reflexivity|].
  rewrite scan_cons, value_bind, value_load_law. simpl List.find.
  unfold contains at 1.
  destruct (truthy (text_of fs f)); simpl; [|exact IH].
  destruct (find (lower (text_of fs f)) q =? -1); simpl; [exact IH|].
  reflexivity.
Qed.

(** The loop reads the files in the order of the list and stops at the
    one it returns. *)
Lemma scan_reads (fs : laws_dir) (q : str) (files : list filename) :
  match fst (value (scan fs q files)) with
  | Some f => exists earlier later,
      files = earlier ++ f :: later /\ reads (scan fs q files) = earlier ++ [f]
  | None => reads (scan fs q files) = files
  end.
Proof.
  induction files as [|f files IH]; [reflexivity|].
  rewrite scan_cons, value_bind, reads_bind, value_load_law.
  simpl (reads (load_law fs f)).
  destruct (negb (truthy (text_of fs f))).
  - destruct (fst (value (scan fs q files))) as [g|].
    + destruct IH as (earlier & later & -> & ->).
      now exists (f :: earlier), later.
    + simpl. now rewrite IH.
  - destruct (negb (find (lower (text_of fs f)) q =? -1)).
    + simpl. now exists [], files.
    + destruct (fst (value (scan fs q files))) as [g|].
      * destruct IH as (earlier & later & -> & ->).
        now exists (f :: earlier), later.
      * simpl. now rewrite IH.
Qed.

Lemma find_article_value (fs : laws_dir) (query : str) :
  value (find_article fs query true) =
    match value (precise fs (lower query)) with
    | Some (codex, frag) => (Some codex, Some frag)
    | None => value (scan fs (lower query) LAWS_FILES)
    end.
Proof.
  unfold find_article. simpl negb. cbv iota. rewrite value_bind.
  now destruct (value (precise fs (lower query))) as [[c w]|].
Qed.

Lemma ARTICLE_app_nonempty (n : str) : ARTICLE ++ n <> [].
Proof. intros H. apply app_eq_nil in H as [H _]. discriminate. Qed.

Lemma find_article_found (fs : laws_dir) (query : str) (laws_ok : bool)
  (f : filename) (frag : str) :
  value (find_article fs query laws_ok) = (Some f, Some frag) ->
  exists sub,
    find (lower (text_of fs f)) sub <> -1
    /\ (sub <> [] \/ text_of fs f <> [])
    /\ frag = window (text_of fs f) (find (lower (text_of fs f)) sub).
Proof.
  destruct laws_ok; [|discriminate].
  rewrite find_article_value.
  destruct (value (precise fs (lower query))) as [[c w]|] eqn:Hp.
  - intros [= -> ->]. apply precise_found in Hp as (n & Hn & Hw).
    exists (ARTICLE ++ n). repeat split; try assumption.
    left. apply ARTICLE_app_nonempty.
  - rewrite scan_value.
    destruct (List.find _ LAWS_FILES) as [g|] eqn:Hf; [|discriminate].
    intros [= -> <-]. apply find_some in Hf as [_ Hf].
    apply andb_true_iff in Hf as [Ht Hf].
    exists (lower query). repeat split.
    + unfold contains in Hf. now apply Z.eqb_neq, negb_true_iff.
    + right. now apply truthy_true.
Qed.

(** *** Windows *)

Lemma window_split (full : str) (idx : Z) :
  0 <= idx ->
  exists pre post,
    full = pre ++ window full idx ++ post
    /\ len pre = Z.min (Z.max 0 (idx - 80)) (len full)
    /\ len pre + len (window full idx)
       = Z.max (len pre) (Z.min (idx + 900) (len full)).
Proof.
  intros Hi. unfold window.
  destruct (slice_split full (Z.max 0 (idx - 80)) (idx + 900))
    as (pre & post & Hs & Hp & Hl); [lia | lia |].
  exists pre, post. repeat split; try assumption. lia.
Qed.

Lemma window_covers (full low pattern : str) :
  find low pattern <> -1 -> len low = len full -> len pattern <= 900 ->
  covers (Z.max 0 (find low pattern - 80))
         (window full (find low pattern)) (find low pattern) pattern.
Proof.
  intros Hf Hlen Hp.
  pose proof (find_nonneg _ _ Hf) as H0.
  pose proof (find_fits _ _ Hf) as H1.
  pose proof (len_nonneg pattern) as H2.
  destruct (window_split full (find low pattern) H0)
    as (pre & post & _ & Hpre & Hw).
  unfold covers. lia.
Qed.


Lemma find_empty (s : str) : find s [] = 0.
Proof. unfold find. now destruct s. Qed.

Lemma contains_in_empty (sub : str) : sub <> [] -> contains sub [] = false.
Proof. now destruct sub. Qed.

Lemma find_pointwise {A : Type} (p p' : A -> bool) (l : list A) :
  (forall a, p a = p' a) -> List.find p l = List.find p' l.
Proof.
  intros E. induction l as [|a l IH]; simpl; [reflexivity|].
  now rewrite E, IH.
Qed.

(** Where lowercasing keeps the length of every document, a fragment that
    is found is never empty. *)
Lemma found_fragment_nonempty (fs : laws_dir) (query : str) (laws_ok : bool)
  (f : filename) (frag : str) :
  (forall g, len (lower (text_of fs g)) = len (text_of fs g)) ->
  value (find_article fs query laws_ok) = (Some f, Some frag) ->
  frag <> [].
Proof.
  intros Hlen Hv.
  apply find_article_found in Hv as (sub & Hf & Hne & ->).
  pose proof (find_nonneg _ _ Hf) as H0.
  pose proof (find_fits _ _ Hf) as H1.
  rewrite Hlen in H1.
  destruct (window_split (text_of fs f) _ H0) as (pre & post & _ & Hp & Hw).
  assert (0 < len (text_of fs f) /\
          find (lower (text_of fs f)) sub < len (text_of fs f)
          \/ sub = [] /\ 0 < len (text_of fs f)) as Hcase.
  { destruct sub as [|c sub].
    - right. split; [reflexivity|].
      destruct Hne as [Hne | Hne]; [congruence|].
      destruct (text_of fs f); [congruence | rewrite len_cons].
      pose proof (len_nonneg s). lia.
    - left. rewrite len_cons in H1. pose proof (len_nonneg sub). lia. }
  intros E. rewrite E, len_nil in Hw.
  destruct Hcase as [[Hn Hi] | [-> Hn]]; [lia|].
  rewrite find_empty in *. lia.
Qed.

(** (C2, amended) When the first digit run of the lowercased query is [n],
    the query is classified to [codex] and the lowercased text of that
    document contains the phrase [ARTICLE ++ n], [find_article] returns
    [codex] with the window cut at the first offset [i] of the phrase; and
    when lowercasing kept the length of the document and the phrase has at
    most 900 characters, the window covers the whole match. *)
Theorem find_article_precise (fs : laws_dir) (query n : str)
  (rest : list str) (codex : filename) :
  findall_digits (lower query) = n :: rest ->
  detect_file (lower query) = Some codex ->
  occurs (ARTICLE ++ n) (lower (text_of fs codex)) ->
  let full := text_of fs codex in
  let i := find (lower full) (ARTICLE ++ n) in
  value (find_article fs query true) = (Some codex, Some (window full i))
  /\ occurs_at (ARTICLE ++ n) (lower full) i
  /\ (forall j, occurs_at (ARTICLE ++ n) (lower full) j -> i <= j)
  /\ (len (lower full) = len full -> len (ARTICLE ++ n) <= 900 ->
      covers (Z.max 0 (i - 80)) (window full i) i (ARTICLE ++ n)).
Proof.
  intros Hn Hc Ho full i.
  assert (Hi : i <> -1).
  { apply contains_occurs in Ho. unfold contains in Ho.
    now apply Z.eqb_neq, negb_true_iff. }
  destruct (find_first _ _ Hi) as [Hat Hmin].
  repeat split; try assumption.
  - rewrite find_article_value, (precise_value fs _ n rest codex Hn Hc).
    fold full. fold i. apply Z.eqb_neq in Hi. now rewrite Hi.
  - apply (proj1 (window_covers full (lower full) (ARTICLE ++ n) Hi H H0)).
  - apply (proj2 (window_covers full (lower full) (ARTICLE ++ n) Hi H H0)).
Qed.

(** (C6) When the lowercased query has no digit run, or no category, or
    the first tier does not find its phrase, [find_article] answers what
    the search of the whole lowercased query through the documents, in the
    order of [LAWS_FILES], answers: the first document containing it, or
    nothing; and the files are read in that order up to the one
    returned. *)
Theorem find_article_fallback (fs : laws_dir) (query : str) :
  lower [] = [] -> lower query <> [] ->
  findall_digits (lower query) = []
  \/ detect_file (lower query) = None
  \/ (exists n rest c,
        findall_digits (lower query) = n :: rest
        /\ detect_file (lower query) = Some c
        /\ ~ occurs (ARTICLE ++ n) (lower (text_of fs c))) ->
  value (find_article fs query true) = first_containing fs (lower query)
  /\ exists tried later,
       LAWS_FILES = tried ++ later
       /\ reads (find_article fs query true)
          = reads (precise fs (lower query)) ++ tried
       /\ match fst (value (find_article fs query true)) with
          | Some f => exists earlier, tried = earlier ++ [f]
          | None => later = []
          end.
Proof.
  intros Hnil Hq Hfall.
  pose proof (precise_falls_through fs _ Hfall) as Hp.
  assert (Hv : value (find_article fs query true)
               = value (scan fs (lower query) LAWS_FILES))
    by (now rewrite find_article_value, Hp).
  split.
  - rewrite Hv, scan_value. unfold first_containing.
    rewrite (find_pointwise _
               (fun f => contains (lower query) (lower (text_of fs f)))).
    + reflexivity.
    + intros f. destruct (text_of fs f) eqn:E; simpl; [|reflexivity].
      now rewrite Hnil, contains_in_empty.
  - assert (Hr : reads (find_article fs query true)
                 = reads (precise fs (lower query))
                   ++ reads (scan fs (lower query) LAWS_FILES)).
    { unfold find_article. simpl negb. cbv iota.
      now rewrite reads_bind, Hp. }
    rewrite Hv, Hr.
    pose proof (scan_reads fs (lower query) LAWS_FILES) as Hs.
    destruct (fst (value (scan fs (lower query) LAWS_FILES))) as [f|].
    + destruct Hs as (earlier & later & Hl & ->).
      exists (earlier ++ [f]), later. split; [|split].
      * rewrite Hl, <- app_assoc. reflexivity.
      * reflexivity.
      * now exists earlier.
    + rewrite Hs. exists LAWS_FILES, []. split; [|split]; reflexivity.
Qed.




(** (C8) With [laws_ok] false [find_article] answers [(None, None)] and
    reads no file, whatever the query and whatever the law files hold. *)
Theorem find_article_without_laws (fs fs' : laws_dir) (query : str) :
  value (find_article fs query false) = (None, None)
  /\ reads (find_article fs query false) = []
  /\ find_article fs query false = find_article fs' query false.
Proof. repeat split. Qed.

End Generic.

(** *** Runs on the table of the examples *)

#[local] Existing Instance table.

Lemma find_article_precise_witness :
  (findall_digits (U:=table) (lower (u "ук 158")) = [u "158"]
   /\ detect_file (U:=table) (lower (u "ук 158")) = Some "uk_rf.txt"%string
   /\ occurs (ARTICLE ++ u "158")
             (lower (Unicode:=table) (text_of uk_158 "uk_rf.txt"%string)))
  /\ value (find_article (U:=table) uk_158 (u "ук 158") true)
     = (Some "uk_rf.txt"%string, Some (u "Статья 158. Кража"))
  /\ covers 0 (u "Статья 158. Кража") 0 (u "статья 158").
Proof.
  assert (H1 : findall_digits (U:=table) (lower (u "ук 158")) = [u "158"])
    by reflexivity.
  assert (H2 : detect_file (U:=table) (lower (u "ук 158"))
               = Some "uk_rf.txt"%string) by reflexivity.
  assert (H3 : occurs (ARTICLE ++ u "158")
                 (lower (Unicode:=table) (text_of uk_158 "uk_rf.txt"%string)))
    by (exists [], (u ". кража"); reflexivity).
  split; [auto|].
  destruct (find_article_precise (U:=table) uk_158 (u "ук 158") (u "158") []
              "uk_rf.txt"%string H1 H2 H3) as (Hv & _ & _ & Hc).
  split; [exact Hv|].
  apply Hc; vm_compute; [reflexivity | discriminate].
Defined.

(** (C2, as stated) The claim is that the returned window covers the
    match.  For an article number of 900 digits the phrase has 907
    characters, the match is at offset 0 and the window stops after 900
    characters, seven short of the end of the match. *)
Lemma window_shorter_than_match :
  let query := u "ук " ++ long_number in
  let full := text_of uk_long "uk_rf.txt"%string in
  let pattern := ARTICLE ++ long_number in
  query <> []
  /\ findall_digits (U:=table) (lower query) = [long_number]
  /\ detect_file (U:=table) (lower query) = Some "uk_rf.txt"%string
  /\ find (lower (Unicode:=table) full) pattern = 0
  /\ value (find_article (U:=table) uk_long query true)
     = (Some "uk_rf.txt"%string, Some (window full 0))
  /\ len (window full 0) = 900
  /\ len pattern = 907
  /\ ~ covers (Z.max 0 (0 - 80)) (window full 0) 0 pattern.
Proof.
  cbv zeta.
  split; [discriminate|].
  split; [vm_compute; reflexivity|].
  split; [vm_compute; reflexivity|].
  split; [vm_compute; reflexivity|].
  split; [vm_compute; reflexivity|].
  split; [vm_compute; reflexivity|].
  split; [vm_compute; reflexivity|].
  intros [_ H]. vm_compute in H. congruence.
Qed.

Lemma find_article_fallback_witness :
  (lower (Unicode:=table) [] = []
   /\ lower (Unicode:=table) (u "кража") <> []
   /\ findall_digits (U:=table) (lower (u "кража")) = [])
  /\ value (find_article (U:=table) uk_158 (u "кража") true)
     = (Some "uk_rf.txt"%string, Some (u "Статья 158. Кража")).
Proof.
  assert (H1 : lower (Unicode:=table) [] = []) by reflexivity.
  assert (H2 : lower (Unicode:=table) (u "кража") <> [])
    by (vm_compute; discriminate).
  assert (H3 : findall_digits (U:=table) (lower (u "кража")) = [])
    by reflexivity.
  split; [auto|].
  destruct (find_article_fallback (U:=table) uk_158 (u "кража") H1 H2
              (or_introl H3)) as [Hv _].
  rewrite Hv. reflexivity.
Defined.


(** (C9) A found fragment is to be non-empty.  Lowercasing the letter
    U+0130 yields two code points, so in a document where a hundred of them
    precede article 5 the phrase is found at offset 200 of the lowercased
    text, while the document has 108 characters: the slice from 120 to
    1100 is empty, and [find_article] returns the document's name with an
    empty fragment. *)
Theorem find_article_empty_fragment :
  let full := text_of uk_dotted "uk_rf.txt"%string in
  len full = 108
  /\ len (lower (Unicode:=table) full) = 208
  /\ find (lower (Unicode:=table) full) (u "статья 5") = 200
  /\ value (find_article (U:=table) uk_dotted (u "ук 5") true)
     = (Some "uk_rf.txt"%string, Some []).
Proof.
  cbv zeta.
  repeat (split; [vm_compute; reflexivity|]).
  vm_compute. reflexivity.
Qed.

(** (C10) The first tier looks for the phrase as a plain substring and
    checks nothing after the digits: for a query whose first digit run is
    15, classified to the criminal code, and a document whose first
    [статья 15] is the start of [статья 158], [find_article] returns the
    window around article 158. *)
Theorem find_article_longer_number :
  exists (fs : laws_dir) (query full : str),
    fs "uk_rf.txt"%string = Some full
    /\ findall_digits (U:=table) (lower query) = [u "15"]
    /\ detect_file (U:=table) (lower query) = Some "uk_rf.txt"%string
    /\ find (lower (Unicode:=table) full) (u "статья 15") = 0
    /\ find (lower (Unicode:=table) full) (u "статья 158") = 0
    /\ value (find_article (U:=table) fs query true)
       = (Some "uk_rf.txt"%string, Some (window full 0))
    /\ window full 0 = u "Статья 158. Кража".
Proof.
  exists uk_158, (u "ук 15"), (u "Статья 158. Кража").
  repeat (split; [vm_compute; reflexivity|]).
  vm_compute. reflexivity.
Qed.

End LocatorFacts.

(** ** Query coordinator *)

Module CoordinatorFacts.
Import Py Engine Locator Coordinator Spec Examples PyFacts.
Import EngineFacts LocatorFacts.

Lemma ask_ai_value {U : Unicode} (fs : laws_dir) (input : str)
  (self : Main) :
  strip input <> [] ->
  value (ask_ai fs input self) =
    {| laws_ok := laws_ok self;
       out := out self ++ [THINKING];
       started := started self ++
         [{| question := strip input;
             fragment :=
               match snd (value (find_article fs (strip input)
                                   (laws_ok self))) with
               | Some frag => if truthy frag then frag else []
               | None => []
               end |}] |}.
Proof.
  intros Hq. unfold ask_ai.
  apply truthy_true in Hq. rewrite Hq. cbv beta iota zeta delta [negb].
  now rewrite value_bind.
Qed.

(** A blank input starts nothing and reads nothing. *)
Lemma ask_ai_blank {U : Unicode} (fs : laws_dir) (input : str)
  (self : Main) :
  strip input = [] -> ask_ai fs input self = (self, []).
Proof. intros Hq. unfold ask_ai. now rewrite Hq. Qed.

Lemma deliver_one (self : Main) (text : str) :
  out (deliver self [text])
  = out self ++ [u "Ответ ИИ:" ++ nl ++ text ++ nl].
Proof. reflexivity. Qed.

Lemma deliver_after_ask (self : Main) (thinking text : str)
  (ws : list AIWorker) :
  out (deliver {| laws_ok := laws_ok self; out := out self ++ [thinking];
                  started := ws |} [text])
  = out self ++ [thinking; u "Ответ ИИ:" ++ nl ++ text ++ nl].
Proof.
  rewrite deliver_one. cbn [out]. now rewrite <- app_assoc.
Qed.

(** (C5) For an input that is not blank, [ask_ai] hands exactly one worker
    to a thread, carrying the stripped question; whatever the state of the
    engine, that worker's [run] emits exactly one string, on the
    unavailable path, on the answer path and on the fault path alike, so
    [ai_done] appends exactly one answer to the display log. *)
Theorem ask_ai_one_callback {U : Unicode} (fs : laws_dir) (input : str)
  (self : Main) :
  strip input <> [] ->
  exists worker,
    started (value (ask_ai fs input self)) = started self ++ [worker]
    /\ question worker = strip input
    /\ forall (h : host) (llm : option Llama),
         exists text,
           emitted (run worker h llm) = [text]
           /\ text = match fst (fst (get_llm h llm)) with
                     | None => UNAVAILABLE
                     | Some engine =>
                         match engine (prompt worker) with
                         | Text raw => postprocess raw
                         | Raise e => ERROR_PREFIX ++ e
                         end
                     end
           /\ out (deliver (value (ask_ai fs input self))
                           (emitted (run worker h llm)))
              = out self ++ [THINKING; u "Ответ ИИ:" ++ nl ++ text ++ nl].
Proof.
  intros Hq.
  rewrite (ask_ai_value fs input self Hq).
  eexists. split; [reflexivity | split; [reflexivity|]].
  intros h llm. eexists. split; [apply run_emits|].
  split; [reflexivity|].
  rewrite run_emits. apply deliver_after_ask.
Qed.

Lemma ask_ai_one_callback_witness :
  strip (u " ук 158 ") <> []
  /\ exists worker,
       started (value (ask_ai (U:=table) uk_158 (u " ук 158 ") fresh))
         = [worker]
       /\ question worker = u "ук 158"
       /\ emitted (run worker broken None) = [UNAVAILABLE].
Proof.
  assert (Hq : strip (u " ук 158 ") <> []) by (vm_compute; discriminate).
  split; [exact Hq|].
  destruct (ask_ai_one_callback (U:=table) uk_158 (u " ук 158 ") fresh Hq)
    as (worker & Hs & Hw & Hrun).
  exists worker. split; [exact Hs | split; [exact Hw|]].
  destruct (Hrun broken None) as (text & He & Ht & _).
  rewrite He, Ht. reflexivity.
Defined.

End CoordinatorFacts.

(** ** Further properties of the generation engine *)

Module EngineMore.
Import Py Engine Spec Examples PyFacts EngineFacts.

(** *** The handle when calls overlap *)

Lemma get_llm_loaded (h : host) (m : Llama) :
  get_llm h (Some m) =
    (if HAS_LLAMA h && model_exists h then Some m else None,
     Some m,
     if HAS_LLAMA h then [PathExists] else []).
Proof.
  unfold get_llm. destruct (HAS_LLAMA h), (model_exists h); reflexivity.
Qed.

(** A call that no other call interrupts does what [get_llm] does. *)
Lemma call_alone (h : host) (llm : option Llama) :
  interleave [0; 0; 0; 0]%nat (llm, [entering h])
  = (snd (fst (get_llm h llm)),
     [{| on := h; at_stage := Returned (fst (fst (get_llm h llm))) |}]).
Proof.
  destruct h as [[|] [|] [m|]], llm as [m0|]; reflexivity.
Qed.

Lemma length_set_call (i : nat) (c : call) (cs : list call) :
  length (set_call i c cs) = length cs.
Proof.
  revert i. induction cs as [|d cs IH]; intros [|i]; simpl; auto.
Qed.

Lemma nth_error_set_call (i j : nat) (c d : call) (cs : list call) :
  nth_error (set_call i c cs) j = Some d ->
  (i = j /\ d = c /\ nth_error cs j <> None)
  \/ (i <> j /\ nth_error cs j = Some d).
Proof.
  revert i j. induction cs as [|e cs IH]; intros [|i] [|j]; simpl;
    try discriminate.
  - intros [= <-]. left. repeat split. discriminate.
  - intros H. right. now split.
  - intros [= <-]. right. now split.
  - intros H. destruct (IH i j H) as [(-> & -> & Hn) | (Hij & Hn)].
    + left. now repeat split.
    + right. split; [congruence | exact Hn].
Qed.

Lemma in_set_call (i : nat) (c d : call) (cs : list call) :
  In d (set_call i c cs) -> d = c \/ In d cs.
Proof.
  revert i. induction cs as [|e cs IH]; intros [|i]; simpl; try tauto.
  - intros [<- | H]; auto.
  - intros [<- | H]; auto. destruct (IH i H); auto.
Qed.

Lemma interleave_cons (i : nat) (order : list nat) (p : process) :
  interleave (i :: order) p = interleave order (step p i).
Proof. reflexivity. Qed.

Lemma after_loaded_refl (c : call) : after_loaded c c.
Proof. unfold after_loaded. tauto. Qed.

Lemma after_loaded_trans (c c' c'' : call) :
  after_loaded c c' -> after_loaded c' c'' -> after_loaded c c''.
Proof.
  unfold after_loaded.
  intros (Ho & He & Hc & Hr) (Ho' & He' & Hc' & Hr').
  rewrite Ho' in *. rewrite Ho in *.
  repeat split; auto.
  intros H. destruct (Hr' H) as [H1 | [[H1 H2] | [H1 H2]]]; auto.
Qed.

(** One step, taken while the global holds an engine. *)
Lemma advance_loaded (c : call) (m : Llama) :
  fst (advance c (Some m)) = c /\ snd (advance c (Some m)) = Some m
  \/ snd (advance c (Some m)) <> None
     /\ after_loaded c (fst (advance c (Some m))).
Proof.
  unfold advance, after_loaded, move.
  destruct c as [h [| | | |r]]; simpl.
  - right. destruct (HAS_LLAMA h && model_exists h) eqn:E; simpl;
      (split; [discriminate|]); repeat split; try discriminate; auto.
  - right. split; [discriminate|]. repeat split; discriminate.
  - right. destruct (construct h) eqn:E; simpl;
      (split; [discriminate|]); repeat split; try discriminate; auto.
  - right. split; [discriminate|]. repeat split; discriminate.
  - now left.
Qed.

Lemma step_loaded (llm : option Llama) (cs : list call) (i : nat) :
  llm <> None ->
  fst (step (llm, cs) i) <> None
  /\ length (snd (step (llm, cs) i)) = length cs
  /\ forall j c', nth_error (snd (step (llm, cs) i)) j = Some c' ->
                  exists c, nth_error cs j = Some c /\ after_loaded c c'.
Proof.
  intros Hl. destruct llm as [m|]; [clear Hl | congruence].
  unfold step. cbn [fst snd].
  destruct (nth_error cs i) as [c|] eqn:Hc.
  - destruct (advance c (Some m)) as [c1 g1] eqn:Ha.
    pose proof (advance_loaded c m) as H. rewrite Ha in H. cbn [fst snd] in *.
    split; [destruct H as [[_ ->] | [H _]]; [discriminate | exact H]|].
    split; [apply length_set_call|].
    intros j c' Hj.
    destruct (nth_error_set_call _ _ _ _ _ Hj) as [(-> & -> & _) | (_ & Hn)].
    + exists c. split; [exact Hc|].
      destruct H as [[-> _] | [_ H]];
        [apply after_loaded_refl | exact H].
    + exists c'. split; [exact Hn | apply after_loaded_refl].
  - split; [discriminate|]. split; [reflexivity|].
    intros j c' Hj. exists c'. split; [exact Hj | apply after_loaded_refl].
Qed.

(** (X1) Once the global holds an engine it is never empty again, however
    the calls of [get_llm] overlap.  From then on no call enters the
    constructor that was not in it already, and a call returns [None]
    only if its preconditions fail or its own construction, already under
    way, fails: a call past the preconditions that finds the handle set
    returns an engine. *)
Theorem interleave_keeps_engine (order : list nat) (llm : option Llama)
  (cs : list call) :
  llm <> None ->
  fst (interleave order (llm, cs)) <> None
  /\ length (snd (interleave order (llm, cs))) = length cs
  /\ forall j c', nth_error (snd (interleave order (llm, cs))) j = Some c' ->
                  exists c, nth_error cs j = Some c /\ after_loaded c c'.
Proof.
  revert llm cs. induction order as [|i order IH]; intros llm cs Hl.
  - split; [exact Hl|]. split; [reflexivity|].
    intros j c' Hj. exists c'. split; [exact Hj | apply after_loaded_refl].
  - rewrite interleave_cons.
    destruct (step_loaded llm cs i Hl) as (Hg & Hlen & Hcalls).
    destruct (step (llm, cs) i) as [g1 cs1]. cbn [fst snd] in *.
    destruct (IH g1 cs1 Hg) as (Hg' & Hlen' & Hcalls').
    split; [exact Hg'|]. split; [congruence|].
    intros j c' Hj.
    destruct (Hcalls' j c' Hj) as (c1 & Hj1 & H1).
    destruct (Hcalls j c1 Hj1) as (c & Hj0 & H0).
    exists c. split; [exact Hj0 | now apply after_loaded_trans with c1].
Qed.

Lemma interleave_keeps_engine_witness :
  Some failing_engine <> None
  /\ fst (interleave [1; 0; 1; 0; 1; 0; 1; 0]%nat
            (Some failing_engine,
             [entering (ready echoing_engine); entering broken]))
     <> None.
Proof.
  assert (H : Some failing_engine <> None) by discriminate.
  split; [exact H|].
  exact (proj1 (interleave_keeps_engine [1; 0; 1; 0; 1; 0; 1; 0]%nat
                  (Some failing_engine)
                  [entering (ready echoing_engine); entering broken] H)).
Defined.

Lemma built_step (llm : option Llama) (cs : list call) (g : option Llama)
  (ds : list call) (i : nat) :
  (forall m, g = Some m -> built llm cs m) ->
  (forall d, In d ds ->
             (exists c, In c cs /\ on c = on d)
             /\ forall m, at_stage d = Returned (Some m) -> built llm cs m) ->
  (forall m, fst (step (g, ds) i) = Some m -> built llm cs m)
  /\ forall d, In d (snd (step (g, ds) i)) ->
               (exists c, In c cs /\ on c = on d)
               /\ forall m, at_stage d = Returned (Some m) -> built llm cs m.
Proof.
  intros Hg Hds. unfold step. cbn [fst snd].
  destruct (nth_error ds i) as [c|] eqn:Hc; [|now split].
  apply nth_error_In in Hc.
  destruct (Hds c Hc) as ((c0 & Hc0 & Hon) & Hret).
  assert (Hadv : (forall m, snd (advance c g) = Some m -> built llm cs m)
                 /\ on (fst (advance c g)) = on c
                 /\ forall m, at_stage (fst (advance c g)) = Returned (Some m)
                              -> built llm cs m).
  { unfold advance, move. destruct c as [h [| | | |r]]; cbn [at_stage on] in *.
    - destruct (HAS_LLAMA h && model_exists h); cbn;
        repeat split; auto; discriminate.
    - destruct g; cbn; repeat split; auto; discriminate.
    - destruct (construct h) as [m'|] eqn:E; cbn.
      + repeat split; try discriminate.
        intros m [= <-]. right. exists c0. split; [exact Hc0|].
        left. now rewrite Hon.
      + repeat split; auto; discriminate.
    - cbn. repeat split; auto. intros m [= ->]. now apply Hg.
    - cbn. repeat split; auto. }
  destruct (advance c g) as [c1 g1]. cbn [fst snd] in *.
  destruct Hadv as (Hg1 & Hon1 & Hret1).
  split; [exact Hg1|].
  intros d Hd. apply in_set_call in Hd as [-> | Hd]; [|now apply Hds].
  split; [exists c0; split; [exact Hc0 | congruence] | exact Hret1].
Qed.

Lemma built_interleave (order : list nat) (llm : option Llama)
  (cs : list call) (g : option Llama) (ds : list call) :
  (forall m, g = Some m -> built llm cs m) ->
  (forall d, In d ds ->
             (exists c, In c cs /\ on c = on d)
             /\ forall m, at_stage d = Returned (Some m) -> built llm cs m) ->
  forall d m, In d (snd (interleave order (g, ds))) ->
              at_stage d = Returned (Some m) -> built llm cs m.
Proof.
  revert g ds. induction order as [|i order IH]; intros g ds Hg Hds d m.
  - cbn. intros Hd. now apply Hds.
  - rewrite interleave_cons.
    destruct (built_step llm cs g ds i Hg Hds) as [Hg1 Hds1].
    destruct (step (g, ds) i) as [g1 ds1]. cbn [fst snd] in *.
    now apply IH.
Qed.

Lemma engines_differ : failing_engine <> echoing_engine.
Proof.
  intros E. apply (f_equal (fun m : Llama => m [])) in E. discriminate.
Qed.

(** (X2) However the calls of [get_llm] overlap, an engine that a call
    returns was the global at the start, or was given by the constructor
    of one of the calls, or had been returned already.  It need not be
    the same engine for all calls: when two calls both pass the test
    [llm is None] before either has assigned, both construct, and the one
    that returns before the other assigns returns an engine the global no
    longer holds at the end. *)
Theorem interleave_engines :
  (forall (order : list nat) (llm : option Llama) (cs : list call)
          (d : call) (m : Llama),
     In d (snd (interleave order (llm, cs))) ->
     at_stage d = Returned (Some m) -> built llm cs m)
  /\ interleave [0; 1; 0; 1; 0; 0; 1; 1]%nat
       (None, [entering (ready failing_engine);
               entering (ready echoing_engine)])
     = (Some echoing_engine,
        [{| on := ready failing_engine;
            at_stage := Returned (Some failing_engine) |};
         {| on := ready echoing_engine;
            at_stage := Returned (Some echoing_engine) |}])
  /\ failing_engine <> echoing_engine.
Proof.
  split; [|split; [reflexivity | exact engines_differ]].
  intros order llm cs d m.
  apply built_interleave.
  - intros m' ->. now left.
  - intros c Hc. split; [now exists c|].
    intros m' Hm. right. exists c. split; [exact Hc | now right].
Qed.

Lemma interleave_engines_witness :
  (In {| on := ready failing_engine;
         at_stage := Returned (Some failing_engine) |}
      (snd (interleave [0; 1; 0; 1; 0; 0; 1; 1]%nat
              (None, [entering (ready failing_engine);
                      entering (ready echoing_engine)])))
   /\ at_stage {| on := ready failing_engine;
                  at_stage := Returned (Some failing_engine) |}
      = Returned (Some failing_engine))
  /\ built None [entering (ready failing_engine);
                 entering (ready echoing_engine)] failing_engine.
Proof.
  assert (H1 : In {| on := ready failing_engine;
                     at_stage := Returned (Some failing_engine) |}
                 (snd (interleave [0; 1; 0; 1; 0; 0; 1; 1]%nat
                         (None, [entering (ready failing_engine);
                                 entering (ready echoing_engine)]))))
    by (left; reflexivity).
  split; [split; [exact H1 | reflexivity]|].
  exact (proj1 interleave_engines _ _ _ _ failing_engine H1 eq_refl).
Defined.

(** (X3) [get_llm] calls the constructor exactly when the library and the
    model file are there and the handle is empty, and it looks at the model
    path exactly when the library is there: without the library it does
    nothing at all, and with a loaded engine it never constructs. *)
Theorem get_llm_actions (h : host) (llm : option Llama) :
  (In Construct (snd (get_llm h llm))
   <-> HAS_LLAMA h = true /\ model_exists h = true /\ llm = None)
  /\ (In PathExists (snd (get_llm h llm)) <-> HAS_LLAMA h = true)
  /\ (HAS_LLAMA h = false -> get_llm h llm = (None, llm, [])).
Proof.
  get_llm_cases h llm; repeat split; intros; auto;
    try discriminate; try (intuition discriminate).
Qed.

(** *** [run] when the engine is unavailable *)

(** (X4) Without the library or without the model file [run] emits the
    fixed notice and nothing else, whatever the question and the fragment,
    and even when an engine is already loaded; the handle is left as it
    was and the engine is not called. *)
Theorem run_unavailable_verbatim (w : AIWorker) (h : host)
  (llm : option Llama) :
  HAS_LLAMA h = false \/ model_exists h = false ->
  emitted (run w h llm) = [UNAVAILABLE]
  /\ snd (fst (run w h llm)) = llm
  /\ ~ In Construct (snd (run w h llm)).
Proof.
  intros Hh. unfold run, emitted, get_llm.
  destruct Hh as [-> | ->]; [|destruct (HAS_LLAMA h)]; simpl;
    repeat split; intuition discriminate.
Qed.

Lemma run_unavailable_verbatim_witness :
  (HAS_LLAMA {| HAS_LLAMA := true; model_exists := false;
                construct := Some echoing_engine |} = false
   \/ model_exists {| HAS_LLAMA := true; model_exists := false;
                      construct := Some echoing_engine |} = false)
  /\ emitted (run worker {| HAS_LLAMA := true; model_exists := false;
                            construct := Some echoing_engine |}
                (Some echoing_engine)) = [UNAVAILABLE].
Proof.
  assert (H : HAS_LLAMA {| HAS_LLAMA := true; model_exists := false;
                           construct := Some echoing_engine |} = false
              \/ model_exists {| HAS_LLAMA := true; model_exists := false;
                                construct := Some echoing_engine |} = false)
    by (right; reflexivity).
  split; [exact H|].
  exact (proj1 (run_unavailable_verbatim worker _ (Some echoing_engine) H)).
Defined.

(** *** The text of the answer *)

Lemma lstrip_all_space (ws : str) : forallb isspace ws = true -> lstrip ws = [].
Proof.
  intros H. rewrite <- (app_nil_r ws). now rewrite lstrip_spaces.
Qed.



Lemma strip_all_space (ws : str) : forallb isspace ws = true -> strip ws = [].
Proof. intros H. unfold strip. now rewrite (lstrip_all_space ws H). Qed.

Lemma terminated_last (s : str) :
  terminated s <-> exists c, last_char s = Some c /\ In c TERMINAL.
Proof.
  split.
  - intros (body & c & -> & Hc). exists c. split; [apply last_char_app | easy].
  - intros (c & Hl & Hc). apply last_char_some in Hl as [body ->].
    now exists body, c.
Qed.




(** (X5) Whenever the engine call does not raise, the one string [run]
    emits is non-empty and ends in a terminal punctuation mark: on the
    unavailable path it is the fixed notice, and on the answer path the
    fallback and the ellipsis see to it. *)
Theorem run_terminated_unless_fault (w : AIWorker) (h : host)
  (llm : option Llama) :
  (forall m e, fst (fst (get_llm h llm)) = Some m ->
               m (prompt w) <> Raise e) ->
  exists text,
    emitted (run w h llm) = [text] /\ text <> [] /\ terminated text.
Proof.
  intros Hok. rewrite run_emits.
  destruct (fst (fst (get_llm h llm))) as [m|].
  - destruct (m (prompt w)) as [raw | e] eqn:Hm.
    + exists (postprocess raw). split; [reflexivity|].
      apply postprocess_terminated.
    + now destruct (Hok m e eq_refl).
  - exists UNAVAILABLE. split; [reflexivity | apply UNAVAILABLE_terminated].
Qed.

Lemma run_terminated_unless_fault_witness :
  (forall m e,
     fst (fst (get_llm (ready echoing_engine) None)) = Some m ->
     m (prompt worker) <> Raise e)
  /\ exists text,
       emitted (run worker (ready echoing_engine) None) = [text]
       /\ text <> [] /\ terminated text.
Proof.
  assert (H : forall m e,
             fst (fst (get_llm (ready echoing_engine) None)) = Some m ->
             m (prompt worker) <> Raise e).
  { intros m e Hm. cbn in Hm. injection Hm as <-. discriminate. }
  split; [exact H|].
  exact (run_terminated_unless_fault worker (ready echoing_engine) None H).
Defined.

(** (X6) An engine that answers nothing, [None] or only whitespace, gets
    the fixed fallback message as its answer. *)
Theorem postprocess_blank (raw : option str) :
  match raw with
  | Some r => forallb isspace r = true
  | None => True
  end ->
  postprocess raw = FALLBACK.
Proof.
  intros Hraw. unfold postprocess.
  assert (Hs : strip match raw with
                     | Some r => if truthy r then r else []
                     | None => []
                     end = []).
  { destruct raw as [r|]; [|reflexivity].
    destruct (truthy r); [now apply strip_all_space | reflexivity]. }
  rewrite Hs.
  replace (strip_prefixes []) with (@nil char) by (vm_compute; reflexivity).
  cbn [truthy].
  replace (ends_strangely FALLBACK) with false by (vm_compute; reflexivity).
  reflexivity.
Qed.

Lemma postprocess_blank_witness :
  forallb isspace (u "  ") = true /\ postprocess (Some (u "  ")) = FALLBACK.
Proof.
  assert (H : forallb isspace (u "  ") = true) by (vm_compute; reflexivity).
  split; [exact H|].
  exact (postprocess_blank (Some (u "  ")) H).
Defined.


Lemma terminated_app (p e : str) :
  e <> [] -> terminated (p ++ e) <-> terminated e.
Proof.
  intros He. destruct (exists_last He) as (e' & c' & ->). split.
  - intros (body & c & Hs & Hc). rewrite app_assoc in Hs.
    apply app_inj_tail in Hs as [_ <-]. now exists e', c'.
  - intros (body & c & Hs & Hc). apply app_inj_tail in Hs as [_ <-].
    exists (p ++ e'), c'. split; [now rewrite app_assoc | exact Hc].
Qed.

(** (X8) When the engine call raises, [run] emits the error label followed
    by the text of the exception: a non-empty string that holds that text
    at its end, and that ends in terminal punctuation exactly when the
    exception text does. *)
Theorem run_fault_text (w : AIWorker) (h : host) (llm : option Llama)
  (m : Llama) (e : str) :
  fst (fst (get_llm h llm)) = Some m -> m (prompt w) = Raise e ->
  exists text,
    emitted (run w h llm) = [text]
    /\ text = ERROR_PREFIX ++ e
    /\ text <> []
    /\ (e <> [] -> (terminated text <-> terminated e))
    /\ (e = [] -> ~ terminated text).
Proof.
  intros Hg Hm. exists (ERROR_PREFIX ++ e).
  split; [now apply run_fault with m|].
  split; [reflexivity|]. split; [|split].
  - intros H. apply app_eq_nil in H as [H _]. discriminate.
  - intros He. now apply terminated_app.
  - intros ->. rewrite app_nil_r. intros Ht.
    apply terminated_last in Ht as (c & Hl & Hc).
    vm_compute in Hl. injection Hl as <-.
    vm_compute in Hc. intuition discriminate.
Qed.

Lemma run_fault_text_witness :
  (fst (fst (get_llm (ready failing_engine) None)) = Some failing_engine
   /\ failing_engine (prompt worker) = Raise (u "boom"))
  /\ emitted (run worker (ready failing_engine) None)
     = [ERROR_PREFIX ++ u "boom"].
Proof.
  assert (H1 : fst (fst (get_llm (ready failing_engine) None))
               = Some failing_engine) by reflexivity.
  assert (H2 : failing_engine (prompt worker) = Raise (u "boom"))
    by reflexivity.
  split; [auto|].
  destruct (run_fault_text worker (ready failing_engine) None
              failing_engine (u "boom") H1 H2) as (text & He & -> & _).
  exact He.
Defined.

End EngineMore.

(** ** Further properties of the fragment locator *)

Module LocatorMore.
Import Py Locator Spec Examples PyFacts LocatorFacts.

Section Generic.
Context {U : Unicode}.

(** *** Classification *)

(** (X9) The cascade of tests in [detect_file] is a first-match search
    through the ordered table of categories: the answer is the first
    category, in the order criminal, administrative, civil, constitution,
    police, consumer, one of whose triggers occurs in the lowercased
    query, and [None] when no trigger occurs. *)
Theorem detect_file_table (q : str) : detect_file q = classify q.
Proof.
  unfold detect_file, classify, CATEGORIES.
  cbn [List.find existsb snd fst option_map].
  repeat match goal with
         | |- context [contains ?t (lower q)] =>
             destruct (contains t (lower q)); cbn [orb option_map fst];
             try reflexivity
         end.
Qed.

(** *** Digit runs *)

Lemma flush_cons (cur : str) : cur <> [] -> flush cur = [rev cur].
Proof. destruct cur; [congruence | reflexivity]. Qed.

(** With a run under way, the first answer is that run extended by the
    digits that follow. *)
Lemma findall_digits_from_open (s cur : str) :
  cur <> [] ->
  exists d post rest,
    s = d ++ post
    /\ forallb isdecimal d = true
    /\ match post with [] => True | c :: _ => isdecimal c = false end
    /\ findall_digits_from s cur = (rev cur ++ d) :: rest.
Proof.
  revert cur. induction s as [|c s IH]; intros cur Hcur.
  - exists [], [], []. repeat split.
    simpl. now rewrite flush_cons, app_nil_r.
  - simpl findall_digits_from. destruct (isdecimal c) eqn:Hc.
    + destruct (IH (c :: cur) ltac:(discriminate))
        as (d & post & rest & -> & Hd & Hpost & ->).
      exists (c :: d), post, rest. repeat split; try assumption.
      * simpl. now rewrite Hc, Hd.
      * simpl. now rewrite <- app_assoc.
    + exists [], (c :: s), (findall_digits_from s []).
      repeat split; try assumption.
      now rewrite flush_cons, app_nil_r.
Qed.

(** (X10) The first element of [findall_digits s], the candidate article
    number, is the first maximal run of decimal digits of [s]: it is
    non-empty and all digits, nothing before it in [s] is a digit, and
    what follows it is the end of [s] or a character that is not a
    digit. *)
Theorem findall_digits_first_run (s n : str) (rest : list str) :
  findall_digits s = n :: rest ->
  exists pre post,
    s = pre ++ n ++ post
    /\ forallb (fun c => negb (isdecimal c)) pre = true
    /\ n <> [] /\ forallb isdecimal n = true
    /\ match post with [] => True | c :: _ => isdecimal c = false end.
Proof.
  unfold findall_digits. revert n rest.
  induction s as [|c s IH]; intros n rest; [discriminate|].
  simpl findall_digits_from. destruct (isdecimal c) eqn:Hc.
  - destruct (findall_digits_from_open s [c] ltac:(discriminate))
      as (d & post & rest' & -> & Hd & Hpost & ->).
    intros [= <- <-]. exists [], post. repeat split; try assumption.
    + discriminate.
    + simpl. now rewrite Hc, Hd.
  - simpl. intros H. destruct (IH n rest H)
      as (pre & post & -> & Hpre & Hn & Hd & Hpost).
    exists (c :: pre), post. repeat split; try assumption.
    simpl. now rewrite Hc, Hpre.
Qed.

Lemma flush_digits (cur : str) :
  forallb isdecimal cur = true ->
  Forall (fun r => r <> [] /\ forallb isdecimal r = true) (flush cur).
Proof.
  intros Hcur. destruct cur as [|d cur]; [constructor|].
  rewrite flush_cons by discriminate. constructor; [|constructor]. split.
  - intros E. apply (f_equal (@rev char)) in E.
    rewrite rev_involutive in E. discriminate.
  - rewrite forallb_forall in *. intros x Hx. apply Hcur.
    now apply in_rev.
Qed.

Lemma findall_digits_from_digits (s cur : str) :
  forallb isdecimal cur = true ->
  Forall (fun r => r <> [] /\ forallb isdecimal r = true)
    (findall_digits_from s cur).
Proof.
  revert cur. induction s as [|c s IH]; intros cur Hcur.
  - now apply flush_digits.
  - simpl findall_digits_from. destruct (isdecimal c) eqn:Hc.
    + apply IH. simpl. now rewrite Hc, Hcur.
    + apply Forall_app. split; [now apply flush_digits | now apply IH].
Qed.

(** (X11) Every element of [findall_digits s] is a non-empty string of
    decimal digits, and the list is empty exactly when [s] holds no
    decimal digit, which is when the first tier of [find_article] is
    skipped for want of a number. *)
Theorem findall_digits_runs (s : str) :
  Forall (fun r => r <> [] /\ forallb isdecimal r = true) (findall_digits s)
  /\ (findall_digits s = [] <-> existsb isdecimal s = false).
Proof.
  split; [now apply findall_digits_from_digits|].
  unfold findall_digits. induction s as [|c s IH]; [easy|].
  simpl. destruct (isdecimal c) eqn:Hc; simpl.
  - destruct (findall_digits_from_open s [c] ltac:(discriminate))
      as (d & post & rest & _ & _ & _ & ->).
    split; discriminate.
  - exact IH.
Qed.

(** *** What [find_article] answers and reads *)

Lemma precise_codex (fs : laws_dir) (q : str) (f : filename) (frag : str) :
  value (precise fs q) = Some (f, frag) -> detect_file q = Some f.
Proof.
  unfold precise.
  destruct (findall_digits q) as [|n rest]; [discriminate|].
  destruct (detect_file q) as [c|]; [|discriminate].
  destruct (truthy n && name_truthy c); [|discriminate].
  rewrite value_bind, value_load_law.
  destruct (negb _); simpl; [|discriminate].
  now intros [= <- _].
Qed.

Lemma find_article_some (fs : laws_dir) (query : str) (laws_ok : bool)
  (f : filename) :
  fst (value (find_article fs query laws_ok)) = Some f ->
  In f LAWS_FILES /\ name_truthy f = true
  /\ exists frag, value (find_article fs query laws_ok) = (Some f, Some frag).
Proof.
  destruct laws_ok; [|discriminate].
  rewrite find_article_value.
  destruct (value (precise fs (lower query))) as [[c w]|] eqn:Hp.
  - intros [= ->]. apply precise_codex in Hp.
    split; [now apply detect_file_listed with (lower query)|].
    split; [now apply detect_file_truthy with (lower query)|].
    now exists w.
  - rewrite scan_value.
    destruct (List.find _ LAWS_FILES) as [g|] eqn:Hf; [|discriminate].
    intros [= ->]. apply find_some in Hf as [Hin _].
    split; [exact Hin|]. split; [|eexists; reflexivity].
    simpl in Hin. intuition (subst; reflexivity).
Qed.

Lemma find_article_none (fs : laws_dir) (query : str) (laws_ok : bool) :
  fst (value (find_article fs query laws_ok)) = None ->
  value (find_article fs query laws_ok) = (None, None).
Proof.
  destruct laws_ok; [|reflexivity].
  rewrite find_article_value.
  destruct (value (precise fs (lower query))) as [[c w]|]; [discriminate|].
  rewrite scan_value.
  now destruct (List.find _ LAWS_FILES).
Qed.

(** (X12) [find_article] answers a pair of the same kind on every input:
    either [(None, None)] or a document name with a fragment, and the name
    is then one of the six of [LAWS_FILES], never empty, so that the test
    [if not fname] of the callers tells the two cases apart. *)
Theorem find_article_shape (fs : laws_dir) (query : str) (laws_ok : bool) :
  value (find_article fs query laws_ok) = (None, None)
  \/ exists f frag,
       value (find_article fs query laws_ok) = (Some f, Some frag)
       /\ In f LAWS_FILES /\ name_truthy f = true.
Proof.
  destruct (fst (value (find_article fs query laws_ok))) as [f|] eqn:E.
  - right. destruct (find_article_some _ _ _ _ E) as (Hin & Ht & frag & Hv).
    now exists f, frag.
  - left. now apply find_article_none.
Qed.

Lemma window_len (full : str) (idx : Z) :
  0 <= idx -> len (window full idx) <= 980.
Proof.
  intros Hi. destruct (window_split full idx Hi) as (pre & post & _ & Hp & Hw).
  pose proof (len_nonneg full). lia.
Qed.

Lemma reads_precise (fs : laws_dir) (q : str) :
  reads (precise fs q) = []
  \/ exists c, detect_file q = Some c /\ reads (precise fs q) = [c].
Proof.
  unfold precise.
  destruct (findall_digits q) as [|n rest]; [now left|].
  destruct (detect_file q) as [c|]; [|now left].
  destruct (truthy n && name_truthy c); [|now left].
  right. exists c. split; [reflexivity|].
  rewrite reads_bind. simpl (reads (load_law fs c)).
  now destruct (negb _).
Qed.

Lemma scan_reads_prefix (fs : laws_dir) (q : str) (files : list filename) :
  exists later, files = reads (scan fs q files) ++ later.
Proof.
  pose proof (scan_reads fs q files) as H.
  destruct (fst (value (scan fs q files))).
  - destruct H as (earlier & later & -> & ->).
    exists later. now rewrite <- app_assoc.
  - rewrite H. exists []. now rewrite app_nil_r.
Qed.

Lemma reads_find_article (fs : laws_dir) (query : str) :
  reads (find_article fs query true)
  = reads (precise fs (lower query))
    ++ match value (precise fs (lower query)) with
       | Some _ => []
       | None => reads (scan fs (lower query) LAWS_FILES)
       end.
Proof.
  unfold find_article. simpl negb. cbv iota. rewrite reads_bind.
  now destruct (value (precise fs (lower query))) as [[c w]|].
Qed.

(** (X13) [find_article] opens law files of the fixed list only, at most
    seven times in one call: the classified document at most once, then
    the documents of [LAWS_FILES] in order, each at most once. *)
Theorem find_article_reads_listed (fs : laws_dir) (query : str)
  (laws_ok : bool) :
  Forall (fun f => In f LAWS_FILES) (reads (find_article fs query laws_ok))
  /\ (length (reads (find_article fs query laws_ok)) <= 7)%nat
  /\ exists first tried later,
       reads (find_article fs query laws_ok) = first ++ tried
       /\ (length first <= 1)%nat
       /\ LAWS_FILES = tried ++ later.
Proof.
  destruct laws_ok.
  2:{ split; [constructor|]. split; [simpl; lia|].
      exists [], [], LAWS_FILES. repeat split. simpl. lia. }
  rewrite reads_find_article.
  assert (Hp : Forall (fun f => In f LAWS_FILES)
                 (reads (precise fs (lower query)))
               /\ (length (reads (precise fs (lower query))) <= 1)%nat).
  { destruct (reads_precise fs (lower query)) as [-> | (c & Hc & ->)].
    - split; [constructor | simpl; lia].
    - split; [|simpl; lia]. constructor; [|constructor].
      now apply detect_file_listed with (lower query). }
  destruct Hp as [Hp1 Hp2].
  assert (Hs : exists later,
             LAWS_FILES
             = match value (precise fs (lower query)) with
               | Some _ => []
               | None => reads (scan fs (lower query) LAWS_FILES)
               end ++ later).
  { destruct (value (precise fs (lower query))).
    - now exists LAWS_FILES.
    - apply scan_reads_prefix. }
  destruct Hs as (later & Hl).
  set (tried := match value (precise fs (lower query)) with
                | Some _ => []
                | None => reads (scan fs (lower query) LAWS_FILES)
                end) in *.
  assert (Hlen : (length tried + length later = 6)%nat).
  { rewrite <- length_app, <- Hl. reflexivity. }
  split; [|split].
  - apply Forall_app. split; [exact Hp1|].
    apply Forall_forall. intros f Hf. rewrite Hl.
    apply in_or_app. now left.
  - rewrite length_app. lia.
  - exists (reads (precise fs (lower query))), tried, later.
    repeat split; assumption.
Qed.

(** *** Empty and missing documents *)

Lemma find_in_empty (sub : str) : sub <> [] -> find [] sub = -1.
Proof. now destruct sub. Qed.

Lemma precise_no_text (fs : laws_dir) (q : str) :
  lower [] = [] ->
  (forall f, In f LAWS_FILES -> text_of fs f = []) ->
  value (precise fs q) = None.
Proof.
  intros Hnil Hempty.
  destruct (findall_digits q) as [|n rest] eqn:Hn;
    [apply precise_falls_through; now left|].
  destruct (detect_file q) as [c|] eqn:Hc;
    [|apply precise_falls_through; right; now left].
  rewrite (precise_value fs q n rest c Hn Hc).
  rewrite (Hempty c (detect_file_listed q c Hc)), Hnil.
  now rewrite find_in_empty by apply ARTICLE_app_nonempty.
Qed.

Lemma scan_no_text (fs : laws_dir) (q : str) (files : list filename) :
  (forall f, In f files -> text_of fs f = []) ->
  value (scan fs q files) = (None, None)
  /\ reads (scan fs q files) = files.
Proof.
  induction files as [|f files IH]; intros Hempty; [now split|].
  rewrite scan_cons, value_bind, reads_bind, value_load_law.
  rewrite (Hempty f (or_introl eq_refl)). cbn [truthy negb].
  destruct IH as [IHv IHr]; [intros g Hg; apply Hempty; now right|].
  split; [exact IHv|]. simpl (reads (load_law fs f)). now rewrite IHr.
Qed.

Lemma find_article_no_text (fs : laws_dir) (query : str) :
  lower [] = [] ->
  (forall f, In f LAWS_FILES -> text_of fs f = []) ->
  value (find_article fs query true) = (None, None).
Proof.
  intros Hnil Hempty.
  rewrite find_article_value, (precise_no_text fs _ Hnil Hempty).
  now apply scan_no_text.
Qed.

(** (X14) When every law file is missing, unreadable or empty,
    [find_article] with [laws_ok] true finds nothing, and it has tried
    them all: after at most one read of the classified document it reads
    the six files of [LAWS_FILES] in order. *)
Theorem find_article_no_documents (fs : laws_dir) (query : str) :
  lower [] = [] ->
  (forall f, In f LAWS_FILES -> text_of fs f = []) ->
  value (find_article fs query true) = (None, None)
  /\ exists first,
       reads (find_article fs query true) = first ++ LAWS_FILES
       /\ (length first <= 1)%nat.
Proof.
  intros Hnil Hempty. split.
  - rewrite find_article_value, (precise_no_text fs _ Hnil Hempty).
    now apply scan_no_text.
  - rewrite reads_find_article, (precise_no_text fs _ Hnil Hempty).
    rewrite (proj2 (scan_no_text fs (lower query) LAWS_FILES Hempty)).
    exists (reads (precise fs (lower query))). split; [reflexivity|].
    destruct (reads_precise fs (lower query)) as [-> | (c & _ & ->)];
      simpl; lia.
Qed.

(** (X15) On the empty query, which the callers never pass,
    [find_article] does not fail: the empty string is found at offset 0 of
    the first document that has any text, and the answer is that document
    with its first 900 characters. *)
Theorem find_article_empty_query (fs : laws_dir) :
  lower [] = [] ->
  value (find_article fs [] true) =
    match List.find (fun f => truthy (text_of fs f)) LAWS_FILES with
    | Some f => (Some f, Some (slice (text_of fs f) 0 900))
    | None => (None, None)
    end.
Proof.
  intros Hnil.
  rewrite find_article_value, Hnil.
  rewrite (precise_falls_through fs []) by (now left).
  rewrite scan_value.
  rewrite (find_pointwise _ (fun f => truthy (text_of fs f))).
  - destruct (List.find _ LAWS_FILES); [|reflexivity].
    now rewrite find_empty.
  - intros f. unfold contains. rewrite find_empty. simpl negb.
    apply andb_true_r.
Qed.

(** A document and a match near its start that fit in the window come
    back whole. *)
Lemma slice_all (s : str) (hi : Z) : len s <= hi -> slice s 0 hi = s.
Proof.
  intros H. unfold slice. pose proof (len_nonneg s).
  rewrite !clip_nonneg by lia.
  replace (Z.min 0 (len s)) with 0 by lia.
  replace (Z.min hi (len s)) with (len s) by lia.
  simpl skipn. rewrite Z.sub_0_r. unfold len. rewrite Nat2Z.id.
  apply firstn_all.
Qed.

(** (X16) For a document of at most 900 characters whose match starts
    within its first 80 characters, the fragment is the whole document. *)
Theorem window_whole_document (full : str) (idx : Z) :
  0 <= idx <= 80 -> len full <= idx + 900 -> window full idx = full.
Proof.
  intros Hi Hn. unfold window.
  replace (Z.max 0 (idx - 80)) with 0 by lia.
  now apply slice_all.
Qed.

(** (X17) A law file that is missing or unreadable is to [find_article]
    what an empty file is: two directories whose files give the same text
    through [load_law] give the same answer and the same reads. *)
Theorem find_article_missing_as_empty (fs fs' : laws_dir) (query : str)
  (laws_ok : bool) :
  (forall f, In f LAWS_FILES -> text_of fs f = text_of fs' f) ->
  find_article fs query laws_ok = find_article fs' query laws_ok.
Proof.
  intros Hsame. unfold find_article. destruct laws_ok; [|reflexivity].
  simpl negb. cbv iota.
  assert (Hload : forall f, In f LAWS_FILES ->
                            load_law fs f = load_law fs' f).
  { intros f Hf. unfold load_law. fold (text_of fs f) (text_of fs' f).
    now rewrite Hsame. }
  assert (Hp : precise fs (lower query) = precise fs' (lower query)).
  { unfold precise.
    destruct (findall_digits (lower query)) as [|n rest]; [reflexivity|].
    destruct (detect_file (lower query)) as [c|] eqn:Hc; [|reflexivity].
    destruct (truthy n && name_truthy c); [|reflexivity].
    now rewrite (Hload c (detect_file_listed _ _ Hc)). }
  assert (Hs : forall files, incl files LAWS_FILES ->
                 scan fs (lower query) files = scan fs' (lower query) files).
  { induction files as [|f files IH]; intros Hincl; [reflexivity|].
    rewrite !scan_cons.
    rewrite (Hload f (Hincl f (or_introl eq_refl))).
    rewrite IH; [reflexivity|].
    intros g Hg. apply Hincl. now right. }
  rewrite Hp, (Hs LAWS_FILES (incl_refl _)). reflexivity.
Qed.

End Generic.

Lemma findall_digits_first_run_witness :
  findall_digits (U:=table) (u "ст. 158 ч. 2") = [u "158"; u "2"]
  /\ exists pre post,
       u "ст. 158 ч. 2" = pre ++ u "158" ++ post
       /\ forallb (fun c => negb (isdecimal (Unicode:=table) c)) pre = true.
Proof.
  assert (H : findall_digits (U:=table) (u "ст. 158 ч. 2")
              = [u "158"; u "2"]) by (vm_compute; reflexivity).
  split; [exact H|].
  destruct (findall_digits_first_run (U:=table) _ _ _ H)
    as (pre & post & Hs & Hpre & _).
  now exists pre, post.
Defined.

Lemma find_article_no_documents_witness :
  (lower (Unicode:=table) [] = []
   /\ forall f, In f LAWS_FILES -> text_of (fun _ => None) f = [])
  /\ value (find_article (U:=table) (fun _ => None) (u "ук 158") true)
     = (None, None).
Proof.
  assert (H1 : lower (Unicode:=table) [] = []) by reflexivity.
  assert (H2 : forall f, In f LAWS_FILES -> text_of (fun _ => None) f = [])
    by reflexivity.
  split; [auto|].
  exact (proj1 (find_article_no_documents (U:=table) (fun _ => None)
                  (u "ук 158") H1 H2)).
Defined.

Lemma find_article_empty_query_witness :
  lower (Unicode:=table) [] = []
  /\ value (find_article (U:=table) uk_158 [] true)
     = (Some "uk_rf.txt"%string, Some (u "Статья 158. Кража")).
Proof.
  assert (H : lower (Unicode:=table) [] = []) by reflexivity.
  split; [exact H|].
  rewrite (find_article_empty_query (U:=table) uk_158 H).
  vm_compute. reflexivity.
Defined.

Lemma window_whole_document_witness :
  (0 <= 0 <= 80 /\ len (u "Статья 158. Кража") <= 0 + 900)
  /\ window (u "Статья 158. Кража") 0 = u "Статья 158. Кража".
Proof.
  assert (H1 : 0 <= 0 <= 80) by lia.
  assert (H2 : len (u "Статья 158. Кража") <= 0 + 900)
    by (vm_compute; discriminate).
  split; [auto|].
  exact (window_whole_document (u "Статья 158. Кража") 0 H1 H2).
Defined.

Lemma find_article_missing_as_empty_witness :
  (forall f, In f LAWS_FILES ->
             text_of (fun _ => None) f = text_of (fun _ => Some []) f)
  /\ find_article (U:=table) (fun _ => None) (u "ук 158") true
     = find_article (U:=table) (fun _ => Some []) (u "ук 158") true.
Proof.
  assert (H : forall f, In f LAWS_FILES ->
                text_of (fun _ => None) f = text_of (fun _ => Some []) f)
    by reflexivity.
  split; [exact H|].
  exact (find_article_missing_as_empty (U:=table) _ _ (u "ук 158") true H).
Defined.

End LocatorMore.

(** ** Further properties of the query coordinator *)

Module CoordinatorMore.
Import Py Engine Locator Coordinator Spec Examples PyFacts.
Import EngineFacts LocatorFacts CoordinatorFacts EngineMore LocatorMore.

Section Generic.
Context {U : Unicode}.

Lemma do_search_blank (fs : laws_dir) (input : str) (self : Main) :
  strip input = [] -> do_search fs input self = (self, []).
Proof. intros Hq. unfold do_search. now rewrite Hq. Qed.

(** (X18) Both entry points do nothing on an input that is empty or all
    whitespace: the window state is unchanged, no law file is read and no
    worker is started. *)
Theorem entry_points_ignore_blank (fs : laws_dir) (input : str)
  (self : Main) :
  forallb isspace input = true ->
  do_search fs input self = (self, [])
  /\ ask_ai fs input self = (self, []).
Proof.
  intros Hb. apply strip_all_space in Hb.
  split; [now apply do_search_blank | now apply ask_ai_blank].
Qed.

Lemma do_search_value (fs : laws_dir) (input : str) (self : Main) :
  strip input <> [] ->
  value (do_search fs input self) =
    append self
      match value (find_article fs (strip input) (laws_ok self)) with
      | (Some f, Some frag) => FOUND f (Some frag)
      | _ => if laws_ok self then NOT_FOUND else NO_LAWS
      end
  /\ reads (do_search fs input self)
     = reads (find_article fs (strip input) (laws_ok self)).
Proof.
  intros Hq. unfold do_search.
  apply truthy_true in Hq. rewrite Hq. cbv beta iota zeta delta [negb].
  rewrite value_bind, reads_bind.
  set (r := find_article fs (strip input) (laws_ok self)).
  destruct (fst (value r)) as [f|] eqn:E.
  - destruct (find_article_some _ _ _ _ E) as (_ & Ht & frag & Hv).
    fold r in Hv. rewrite Hv, Ht. cbn [snd fst].
    split; [reflexivity | now rewrite app_nil_r].
  - apply find_article_none in E. fold r in E. rewrite E. cbn [snd fst].
    destruct (laws_ok self); split; try reflexivity; now rewrite app_nil_r.
Qed.

(** (X19) A search on a non-blank input appends exactly one entry to the
    display log and changes nothing else: the document name and the
    fragment when [find_article] found one, the notice that nothing was
    found when the law files were seen at start-up, and the notice that
    the law files are missing otherwise, in which case no file is read. *)
Theorem do_search_outcome (fs : laws_dir) (input : str) (self : Main) :
  strip input <> [] ->
  value (do_search fs input self) =
    append self
      match value (find_article fs (strip input) (laws_ok self)) with
      | (Some f, Some frag) => FOUND f (Some frag)
      | _ => if laws_ok self then NOT_FOUND else NO_LAWS
      end
  /\ started (value (do_search fs input self)) = started self
  /\ (laws_ok self = false ->
      value (do_search fs input self) = append self NO_LAWS
      /\ reads (do_search fs input self) = []).
Proof.
  intros Hq. destruct (do_search_value fs input self Hq) as [Hv Hr].
  split; [exact Hv|]. split; [now rewrite Hv|].
  intros Hoff. rewrite Hr, Hv, Hoff. now split.
Qed.

Ltac nothing_new :=
  exists []; rewrite app_nil_r;
  split; [reflexivity | simpl; try reflexivity; lia].

Lemma handle_step (fs : laws_dir) (self : Main) (e : slot) :
  laws_ok (handle fs self e) = laws_ok self
  /\ (exists added, out (handle fs self e) = out self ++ added
                    /\ (length added <= 1)%nat)
  /\ exists ws, started (handle fs self e) = started self ++ ws
                /\ length ws = length (asked [e]).
Proof.
  destruct e as [input | input | text]; cbn [handle asked filter].
  - destruct (strip input) as [|c q] eqn:Hq.
    + rewrite (do_search_blank fs input self Hq). cbn [value fst].
      split; [reflexivity|].
      split; nothing_new.
    + assert (Hne : strip input <> []) by (rewrite Hq; discriminate).
      rewrite (proj1 (do_search_value fs input self Hne)).
      split; [reflexivity|].
      split; [eexists; split; [reflexivity | simpl; lia]|].
      nothing_new.
  - destruct (strip input) as [|c q] eqn:Hq.
    + rewrite (ask_ai_blank fs input self Hq). cbn [value fst truthy].
      split; [reflexivity|].
      split; nothing_new.
    + assert (Hne : strip input <> []) by (rewrite Hq; discriminate).
      rewrite (ask_ai_value fs input self Hne). cbn [truthy].
      split; [reflexivity|].
      split; [eexists; split; [reflexivity | simpl; lia]|].
      eexists. split; reflexivity.
  - split; [reflexivity|].
    split; [eexists; split; [reflexivity | simpl; lia]|].
    nothing_new.
Qed.

Lemma asked_cons (e : slot) (es : list slot) :
  length (asked (e :: es)) = (length (asked [e]) + length (asked es))%nat.
Proof.
  unfold asked. cbn [filter].
  destruct (match e with Ask input => truthy (strip input) | _ => false end);
    reflexivity.
Qed.

(** (X20) Whatever buttons are pressed and whatever answers arrive, in
    whatever order, the display log only grows at its end, by at most one
    entry per event, the start-up flag [laws_ok] never changes, and
    exactly one worker has been started for each non-blank request to the
    engine. *)
Theorem handle_invariants (fs : laws_dir) (es : list slot) (self : Main) :
  laws_ok (fold_left (handle fs) es self) = laws_ok self
  /\ (exists added,
        out (fold_left (handle fs) es self) = out self ++ added
        /\ (length added <= length es)%nat)
  /\ exists ws,
       started (fold_left (handle fs) es self) = started self ++ ws
       /\ length ws = length (asked es).
Proof.
  revert self. induction es as [|e es IH]; intros self.
  - split; [reflexivity|]. split; nothing_new.
  - cbn [fold_left].
    destruct (IH (handle fs self e))
      as (Hl & (added & Ho & Hn) & (ws & Hs & Hw)).
    destruct (handle_step fs self e)
      as (Hl1 & (added1 & Ho1 & Hn1) & (ws1 & Hs1 & Hw1)).
    split; [congruence|]. split.
    + exists (added1 ++ added). split.
      * now rewrite Ho, Ho1, <- app_assoc.
      * rewrite length_app. simpl. lia.
    + exists (ws1 ++ ws). split.
      * now rewrite Hs, Hs1, <- app_assoc.
      * rewrite length_app, asked_cons. lia.
Qed.

(** (X21) A request to the engine carries the fragment a search on the
    same input would show: the worker's fragment is the one
    [find_article] answers for the stripped input, or the empty string
    when it answers none, it has at most 980 characters, and the files
    read are those [find_article] reads. *)
Theorem ask_ai_fragment (fs : laws_dir) (input : str) (self : Main) :
  strip input <> [] ->
  exists worker,
    started (value (ask_ai fs input self)) = started self ++ [worker]
    /\ fragment worker
       = match snd (value (find_article fs (strip input) (laws_ok self))) with
         | Some frag => frag
         | None => []
         end
    /\ len (fragment worker) <= 980
    /\ reads (ask_ai fs input self)
       = reads (find_article fs (strip input) (laws_ok self)).
Proof.
  intros Hq. rewrite (ask_ai_value fs input self Hq).
  eexists. split; [reflexivity|]. cbn [fragment].
  set (r := find_article fs (strip input) (laws_ok self)).
  assert (Hfrag : match snd (value r) with
                  | Some frag => if truthy frag then frag else []
                  | None => []
                  end
                  = match snd (value r) with
                    | Some frag => frag
                    | None => []
                    end).
  { destruct (snd (value r)) as [[|c frag]|]; reflexivity. }
  rewrite Hfrag. split; [reflexivity|]. split.
  - destruct (fst (value r)) as [f|] eqn:E.
    + destruct (find_article_some _ _ _ _ E) as (_ & _ & frag & Hv).
      fold r in Hv. rewrite Hv. cbn [snd].
      apply find_article_found in Hv as (sub & Hf & _ & ->).
      apply window_len. now apply find_nonneg.
    + apply find_article_none in E. fold r in E. rewrite E. cbn [snd].
      rewrite len_nil. lia.
  - unfold ask_ai. apply truthy_true in Hq. rewrite Hq.
    cbv beta iota zeta delta [negb]. rewrite reads_bind.
    fold r. cbn [reads ret snd]. now rewrite app_nil_r.
Qed.

(** (X22) The flag computed at start-up loses nothing: when it is false,
    because the [laws] directory or every one of the six files is absent,
    and absent files cannot be read, every document loads as the empty
    text and [find_article] would find nothing without the flag as
    well. *)
Theorem startup_flag_loses_nothing (d : disk) (fs : laws_dir)
  (query : str) :
  lower [] = [] ->
  init_laws_ok d = false ->
  (forall f, In f LAWS_FILES ->
             laws_dir_exists d && law_file_exists d f = false ->
             fs f = None) ->
  (forall f, In f LAWS_FILES -> text_of fs f = [])
  /\ value (find_article fs query true)
     = value (find_article fs query (init_laws_ok d)).
Proof.
  intros Hnil Hoff Habsent.
  assert (Hempty : forall f, In f LAWS_FILES -> text_of fs f = []).
  { intros f Hf. unfold text_of. rewrite (Habsent f Hf); [reflexivity|].
    unfold init_laws_ok in Hoff.
    apply andb_false_iff in Hoff as [-> | Hnone]; [reflexivity|].
    destruct (law_file_exists d f) eqn:Hx; [|apply andb_false_r].
    assert (existsb (law_file_exists d) LAWS_FILES = true)
      by (apply existsb_exists; now exists f).
    congruence. }
  split; [exact Hempty|].
  rewrite Hoff. now apply find_article_no_text.
Qed.

End Generic.

Lemma entry_points_ignore_blank_witness :
  forallb isspace (u "   ") = true
  /\ do_search (U:=table) uk_158 (u "   ") fresh = (fresh, []).
Proof.
  assert (H : forallb isspace (u "   ") = true) by (vm_compute; reflexivity).
  split; [exact H|].
  exact (proj1 (entry_points_ignore_blank (U:=table) uk_158 (u "   ")
                  fresh H)).
Defined.

Lemma do_search_outcome_witness :
  strip (u " ук 158 ") <> []
  /\ out (value (do_search (U:=table) uk_158 (u " ук 158 ") fresh))
     = [FOUND "uk_rf.txt"%string (Some (u "Статья 158. Кража"))].
Proof.
  assert (Hq : strip (u " ук 158 ") <> []) by (vm_compute; discriminate).
  split; [exact Hq|].
  rewrite (proj1 (do_search_outcome (U:=table) uk_158 (u " ук 158 ")
                    fresh Hq)).
  vm_compute. reflexivity.
Defined.

Lemma ask_ai_fragment_witness :
  strip (u " ук 158 ") <> []
  /\ exists worker,
       started (value (ask_ai (U:=table) uk_158 (u " ук 158 ") fresh))
         = [worker]
       /\ len (fragment worker) <= 980.
Proof.
  assert (Hq : strip (u " ук 158 ") <> []) by (vm_compute; discriminate).
  split; [exact Hq|].
  destruct (ask_ai_fragment (U:=table) uk_158 (u " ук 158 ") fresh Hq)
    as (worker & Hs & _ & Hl & _).
  exists worker. split; [exact Hs | exact Hl].
Defined.

Lemma startup_flag_loses_nothing_witness :
  (lower (Unicode:=table) [] = []
   /\ init_laws_ok {| laws_dir_exists := true;
                      law_file_exists := fun _ => false |} = false)
  /\ value (find_article (U:=table) (fun _ => None) (u "ук 158") true)
     = (None, None).
Proof.
  assert (H1 : lower (Unicode:=table) [] = []) by reflexivity.
  assert (H2 : init_laws_ok {| laws_dir_exists := true;
                               law_file_exists := fun _ => false |} = false)
    by reflexivity.
  split; [auto|].
  destruct (startup_flag_loses_nothing (U:=table)
              {| laws_dir_exists := true; law_file_exists := fun _ => false |}
              (fun _ => None) (u "ук 158") H1 H2 (fun _ _ _ => eq_refl))
    as [_ Hv].
  rewrite Hv, H2. reflexivity.
Defined.

End CoordinatorMore.
